(** * SureFile: the session and encrypted-configuration layer

    A shallow embedding of [examples/surefile/src/maidsafe/surefile/surefile.cc].
    The member functions of [SureFile] become functions over an explicit
    [State]; a C++ exception becomes the [Throw] outcome of a small
    state-and-error monad in which the state reached before the throw is kept,
    as the side effects of a C++ call are.  Everything the file calls but does
    not define (the drive, the crypto library, protobuf, the file system, the
    Spirit grammar declared in the header) is a field of [Collaborators]. *)

From Stdlib Require Import String Ascii List Bool Arith Lia Sorted.
From stdpp Require Import gmap strings list fin_maps.
Import ListNotations.

Local Open Scope string_scope.

(** ** Errors and outcomes *)

(** The error codes [ThrowError] is called with in this file, and one
    constructor for whatever a collaborator throws. *)
Inductive error : Type :=
| CommonErrors_uninitialised
| CommonErrors_invalid_parameter
| CommonErrors_unknown
| SureFileErrors_invalid_password
| SureFileErrors_password_confirmation_failed
| SureFileErrors_invalid_service
| foreign_exception (what : string).

Inductive result (A : Type) : Type :=
| Ok (a : A)
| Throw (e : error).

Arguments Ok {A} a.
Arguments Throw {A} e.

(** ** Strings as the code uses them *)

Definition newline : ascii := Ascii.ascii_of_nat 10.

(** [std::string::substr(pos, n)]: out of range when [pos] is past the end,
    otherwise at most [n] characters from [pos]. *)
Definition substr (s : string) (pos n : nat) : result string :=
  if Nat.leb pos (String.length s) then Ok (substring pos n s)
  else Throw (foreign_exception "std::out_of_range").

(** The [while (std::getline(file_in, file_content)) lines.push_back(...)]
    loop: the content cut at every newline; a last line without newline counts
    when it is not empty. *)
Fixpoint getlines (s : string) : list string :=
  match s with
  | EmptyString => []
  | String c r =>
      if Ascii.eqb c newline then EmptyString :: getlines r
      else match getlines r with
           | [] => [String c EmptyString]
           | l :: ls => String c l :: ls
           end
  end.

Fixpoint last_char (s : string) : option ascii :=
  match s with
  | EmptyString => None
  | String c EmptyString => Some c
  | String _ r => last_char r
  end.

(** [boost::filesystem::path::operator/]: a separator is added unless the left
    path is empty or already ends with one. *)
Definition path_append (p q : string) : string :=
  match last_char p with
  | None => q
  | Some c => if Ascii.eqb c "/"%char then p ++ q else p ++ "/" ++ q
  end.

(** ** [SureFile::Map]: a [std::map<std::string, std::string>]

    Iteration order matters ([Login] mounts with the first entry,
    [WriteConfigFile] renders the entries in order), so the map is its list
    of entries in key order. *)
Definition Map : Type := list (string * string).

Definition key_lt (a b : string * string) : Prop :=
  String.compare (fst a) (fst b) = Lt.

(** The invariant of a [std::map]: keys strictly increasing. *)
Definition Map_ok (m : Map) : Prop := StronglySorted key_lt m.

Fixpoint Map_find (k : string) (m : Map) : option string :=
  match m with
  | [] => None
  | (k', v) :: m' => if String.eqb k k' then Some v else Map_find k m'
  end.

(** [std::map::insert]: the entry goes to its place in key order; an entry
    with the same key is left as it is, and the flag says which happened. *)
Fixpoint Map_insert (k v : string) (m : Map) : Map * bool :=
  match m with
  | [] => ([(k, v)], true)
  | (k', v') :: m' =>
      match String.compare k k' with
      | Lt => ((k, v) :: m, true)
      | Eq => (m, false)
      | Gt => let (r, fresh) := Map_insert k v m' in ((k', v') :: r, fresh)
      end
  end.

(** ** Passwords, identities, the drive and the trace *)

Definition Identity : Type := string.

(** Modelled from the spec: the [Password] class (passport) is not under src/;
    "an ordered sequence of characters under construction; has a finalized
    flag". *)
Record Password : Type := mkPassword { chars : string; finalised : bool }.

(** Modelled from the spec: "Finalize(): freezes the buffer against further
    edits". *)
Definition Password_Finalise (p : Password) : Password :=
  {| chars := chars p; finalised := true |}.

(** Modelled from the spec: the text of the password, "consumed only by
    KeyDerivation". *)
Definition Password_string (p : Password) : string := chars p.

(** The calls made on [drive_]. [DMount] stands for [MountDrive]'s
    construction of the [Drive] with the given root id together with mounting
    it (on the path-based target, the mount thread and [WaitUntilMounted]). *)
Inductive DriveCall : Type :=
| DMount (drive_root_id : Identity)
| DAddService (service_alias storage_path : string)
| DRemoveService (service_alias : string)
| DReInitialiseService (service_alias storage_path : string) (service_root_id : Identity).

(** What an operation does to the outside, in the order it does it: taking
    and releasing [mutex_], calls on the drive, file reads and writes, and the
    two slots. *)
Inductive event : Type :=
| EvLock
| EvUnlock
| EvDrive (c : DriveCall)
| EvReadFile (path : string)
| EvWriteFile (path : string)
| EvConfigurationError
| EvOnServiceAdded (service_alias : string).

(** The members of [SureFile] the functions below use, and the world around
    it: [drive_] holds the root id the drive was built with;
    [pending_service_additions_] is the map from alias to the pair (drive root
    id, service root id), used by [find], [insert] and [erase] only, so its
    order plays no part; [disk] maps the path of a file to its content;
    [draws] counts the random strings drawn; [trace] lists the outside
    effects so far, oldest first. *)
Record State : Type := mkState {
  logged_in_ : bool;
  password_ : option Password;
  confirmation_password_ : option Password;
  drive_ : option Identity;
  pending_service_additions_ : gmap string (Identity * Identity);
  disk : gmap string string;
  draws : nat;
  trace : list event
}.

(** What the file calls and does not define. A collaborator that can throw
    returns a [result]; the typed string wrappers of the crypto header
    ([SecurePassword], [AES256Key], [CipherText], ...) are taken as plain
    strings, and a failure of their construction as a failure of the call
    they are passed to. [fs_writable] says whether [WriteFile] succeeds on a
    path, [RandomAlphaNumericString] takes the number of the draw,
    [grammer_parse] is [qi::parse] with the grammar of the header: the flag
    it returns, the input it left and the attribute it filled. *)
Record Collaborators : Type := mkCollaborators {
  UserAppDir : string;
  fs_is_directory : string -> bool;
  fs_writable : string -> bool;
  ExcludedFilename : string -> bool;
  kCharRegex_valid : string -> bool;
  RandomAlphaNumericString : nat -> nat -> string;
  Hash_SHA512 : string -> string;
  AES256_KeySize : nat;
  AES256_IVSize : nat;
  SymmEncrypt : string -> string -> string -> result string;
  SymmDecrypt : string -> string -> string -> result string;
  Credentials_Serialise : Identity -> Identity -> result string;
  Credentials_Parse : string -> result (Identity * Identity);
  grammer_parse : string -> bool * string * Map;
  drive : DriveCall -> result unit
}.

Definition kCredentialsFilename : string := "surefile.dat".

Definition kConfigFileComment : string :=
  "# Please do NOT edit." ++ String newline EmptyString.

(** ** State updates *)

Definition set_logged_in (b : bool) (st : State) : State :=
  mkState b (password_ st) (confirmation_password_ st) (drive_ st)
          (pending_service_additions_ st) (disk st) (draws st) (trace st).

Definition set_password (p : option Password) (st : State) : State :=
  mkState (logged_in_ st) p (confirmation_password_ st) (drive_ st)
          (pending_service_additions_ st) (disk st) (draws st) (trace st).

Definition set_confirmation_password (p : option Password) (st : State) : State :=
  mkState (logged_in_ st) (password_ st) p (drive_ st)
          (pending_service_additions_ st) (disk st) (draws st) (trace st).

Definition set_drive (d : option Identity) (st : State) : State :=
  mkState (logged_in_ st) (password_ st) (confirmation_password_ st) d
          (pending_service_additions_ st) (disk st) (draws st) (trace st).

Definition set_pending (t : gmap string (Identity * Identity)) (st : State) : State :=
  mkState (logged_in_ st) (password_ st) (confirmation_password_ st) (drive_ st)
          t (disk st) (draws st) (trace st).

Definition set_disk (d : gmap string string) (st : State) : State :=
  mkState (logged_in_ st) (password_ st) (confirmation_password_ st) (drive_ st)
          (pending_service_additions_ st) d (draws st) (trace st).

Definition set_draws (n : nat) (st : State) : State :=
  mkState (logged_in_ st) (password_ st) (confirmation_password_ st) (drive_ st)
          (pending_service_additions_ st) (disk st) n (trace st).

Definition add_events (evs : list event) (st : State) : State :=
  mkState (logged_in_ st) (password_ st) (confirmation_password_ st) (drive_ st)
          (pending_service_additions_ st) (disk st) (draws st) (trace st ++ evs).

(** ** The monad: state is kept across a throw *)

Definition M (A : Type) : Type := State -> State * result A.

Definition ret {A : Type} (a : A) : M A := fun st => (st, Ok a).

Definition throw {A : Type} (e : error) : M A := fun st => (st, Throw e).

Definition bind {A B : Type} (m : M A) (f : A -> M B) : M B :=
  fun st =>
    match m st with
    | (st', Ok a) => f a st'
    | (st', Throw e) => (st', Throw e)
    end.

Notation "'let!' x ':=' m 'in' k" := (bind m (fun x => k))
  (at level 10, x pattern, m at level 100, k at level 200).
Notation "'do!' m 'in' k" := (bind m (fun _ => k))
  (at level 10, m at level 100, k at level 200).

(** [try { body } catch (...) { handler }]. *)
Definition try_catch_all {A : Type} (body handler : M A) : M A :=
  fun st =>
    match body st with
    | (st', Ok a) => (st', Ok a)
    | (st', Throw _) => handler st'
    end.

Definition emit (e : event) : M unit := fun st => (add_events [e] st, Ok tt).

(** A [std::lock_guard<std::mutex> lock(mutex_)] whose scope is [body]: the
    mutex is released when the scope is left, by return or by exception. *)
Definition lock_guard {A : Type} (body : M A) : M A :=
  fun st =>
    let (st', r) := body (add_events [EvLock] st) in
    (add_events [EvUnlock] st', r).

Definition lift {A : Type} (r : result A) : M A := fun st => (st, r).

Definition get : M State := fun st => (st, Ok st).

Definition modify (f : State -> State) : M unit := fun st => (f st, Ok tt).

(** [karma::format] with the rule "zero or more of: string, '>', string, ':'"
    over the map: every entry in key order, the two strings as they are, with
    no escaping. *)
Fixpoint karma_format (m : Map) : string :=
  match m with
  | [] => EmptyString
  | (k, v) :: r => k ++ ">" ++ v ++ ":" ++ karma_format r
  end.

(** [content.size() - 2] as the count of a [substr]: below 2 the unsigned
    difference wraps to a count past the end, which [substr] cuts to what is
    left; any count of at least the size does the same. *)
Definition size_minus_2 (size : nat) : nat :=
  if Nat.ltb size 2 then size else size - 2.

Section Model.

Context (env : Collaborators).

Definition kConfigFilePath : string :=
  path_append (UserAppDir env) "MaidSafe/SureFile/surefile.conf".

(** *** The file system *)

Definition fs_exists (p : string) (st : State) : bool :=
  match disk st !! p with
  | Some _ => true
  | None => fs_is_directory env p
  end.

(** [WriteFile(path, content)], which reports failure by [false]. *)
Definition WriteFile (p content : string) : M bool :=
  fun st =>
    if fs_writable env p
    then (add_events [EvWriteFile p] (set_disk (<[p := content]> (disk st)) st), Ok true)
    else (add_events [EvWriteFile p] st, Ok false).

(** [ReadFile(path)] returning a [NonEmptyString]: throws when the file cannot
    be read or holds nothing. *)
Definition ReadFile (p : string) : M string :=
  fun st =>
    (add_events [EvReadFile p] st,
     match disk st !! p with
     | Some c => if String.eqb c "" then Throw (foreign_exception "NonEmptyString")
                 else Ok c
     | None => Throw (foreign_exception "ReadFile")
     end).

(** [ReadFile(path, &content)]: [content] stays empty when the read fails. *)
Definition ReadFile_into (p : string) : M string :=
  fun st => (add_events [EvReadFile p] st, Ok (default "" (disk st !! p))).

Definition call_drive (c : DriveCall) : M unit :=
  fun st => (add_events [EvDrive c] st, drive env c).

Definition random_identity : M Identity :=
  fun st => (set_draws (S (draws st)) st, Ok (RandomAlphaNumericString env (draws st) 64)).

(** *** Password buffers *)

Definition ResetPassword : M unit := modify (set_password None).

Definition ResetConfirmationPassword : M unit := modify (set_confirmation_password None).

Definition FinaliseInput (login : bool) : M unit :=
  let! st := get in
  match password_ st with
  | None =>
      do! match confirmation_password_ st with
          | Some _ => ResetConfirmationPassword
          | None => ret tt
          end in
      throw SureFileErrors_invalid_password
  | Some p =>
      do! modify (set_password (Some (Password_Finalise p))) in
      if login then ret tt
      else match confirmation_password_ st with
           | None =>
               do! ResetPassword in
               throw SureFileErrors_password_confirmation_failed
           | Some c => modify (set_confirmation_password (Some (Password_Finalise c)))
           end
  end.

Definition ConfirmInput : M unit :=
  let! st := get in
  match password_ st, confirmation_password_ st with
  | Some p, Some c =>
      if negb (kCharRegex_valid env (Password_string p)) then
        do! ResetPassword in
        do! ResetConfirmationPassword in
        throw SureFileErrors_invalid_password
      else if negb (String.eqb (Password_string p) (Password_string c)) then
        do! ResetPassword in
        do! ResetConfirmationPassword in
        throw SureFileErrors_password_confirmation_failed
      else ret tt
  | _, _ => throw (foreign_exception "null pointer")
  end.

(** *** Key derivation *)

Definition SecurePassword : M string :=
  let! st := get in
  match password_ st with
  | Some p => ret (Hash_SHA512 env (Password_string p))
  | None => throw (foreign_exception "null pointer")
  end.

Definition SecureKey (secure_password : string) : result string :=
  substr secure_password 0 (AES256_KeySize env).

Definition SecureIv (secure_password : string) : result string :=
  substr secure_password (AES256_KeySize env) (AES256_IVSize env).

(** The three lines [PutIds], [GetIds], [CheckConfigFileContent] and
    [EncryptComment] all start with. *)
Definition session_keys : M (string * string) :=
  let! secure_password := SecurePassword in
  let! key := lift (SecureKey secure_password) in
  let! iv := lift (SecureIv secure_password) in
  ret (key, iv).

Definition EncryptComment : M string :=
  let! (key, iv) := session_keys in
  lift (SymmEncrypt env kConfigFileComment key iv).

Definition CheckConfigFileContent (content : string) : M unit :=
  let! (key, iv) := session_keys in
  let! cipher_text := lift (substr content 1 (size_minus_2 (String.length content))) in
  let! plain_text := lift (SymmDecrypt env cipher_text key iv) in
  if String.eqb plain_text kConfigFileComment then ret tt
  else
    do! ResetPassword in
    throw SureFileErrors_invalid_password.

(** *** Credential files *)

Definition PutIds (storage_path : string) (drive_root_id service_root_id : Identity)
  : M unit :=
  let! (key, iv) := session_keys in
  let! serialised_credentials :=
    lift (Credentials_Serialise env drive_root_id service_root_id) in
  let! cipher_text := lift (SymmEncrypt env serialised_credentials key iv) in
  let! written := WriteFile (path_append storage_path kCredentialsFilename) cipher_text in
  if written then ret tt else throw CommonErrors_invalid_parameter.

Definition GetIds (storage_path : string) : M (Identity * Identity) :=
  let! (key, iv) := session_keys in
  let! cipher_text := ReadFile (path_append storage_path kCredentialsFilename) in
  let! serialised_credentials := lift (SymmDecrypt env cipher_text key iv) in
  lift (Credentials_Parse env serialised_credentials).

Definition CheckValid (storage_path service_alias : string) : M unit :=
  let! st := get in
  if negb (fs_exists storage_path st) || ExcludedFilename env service_alias
  then throw SureFileErrors_invalid_service
  else ret tt.

(** *** The drive *)

Definition MountDrive (drive_root_id : Identity) : M unit :=
  do! call_drive (DMount drive_root_id) in
  modify (set_drive (Some drive_root_id)).

Definition InitialiseService (storage_path service_alias : string)
    (service_root_id : Identity) : M unit :=
  do! CheckValid storage_path service_alias in
  call_drive (DReInitialiseService service_alias storage_path service_root_id).

(** *** The config file *)

Definition ReadConfigFile : M Map :=
  let! st := get in
  do! emit (EvReadFile kConfigFilePath) in
  match getlines (default "" (disk st !! kConfigFilePath)) with
  | _ :: line1 :: _ =>
      let '(result, rest, service_pairs) := grammer_parse env line1 in
      do! if negb result || negb (String.eqb rest "")
          then emit EvConfigurationError
          else ret tt in
      ret service_pairs
  | _ => ret []
  end.

Definition WriteConfigFile (service_pairs : Map) : M unit :=
  let! content :=
    match service_pairs with
    | [] =>
        let! cipher := EncryptComment in
        ret ("#" ++ cipher ++ String newline EmptyString)
    | _ :: _ => ret (kConfigFileComment ++ karma_format service_pairs)
    end in
  let! written := WriteFile kConfigFilePath content in
  if written then ret tt else throw CommonErrors_invalid_parameter.

Definition AddConfigEntry (storage_path service_alias : string) : M unit :=
  let! service_pairs := ReadConfigFile in
  match Map_find storage_path service_pairs with
  | Some _ => throw CommonErrors_invalid_parameter
  | None =>
      let (service_pairs', inserted) := Map_insert storage_path service_alias service_pairs in
      if inserted then WriteConfigFile service_pairs'
      else throw CommonErrors_invalid_parameter
  end.

(** *** The session *)

Definition CreateUser : M unit :=
  let! st := get in
  if logged_in_ st then ret tt
  else
    do! FinaliseInput false in
    do! ConfirmInput in
    do! ResetConfirmationPassword in
    let! config_content := ReadFile_into kConfigFilePath in
    if negb (String.eqb config_content "") then throw CommonErrors_invalid_parameter
    else
      let! drive_root_id := random_identity in
      do! MountDrive drive_root_id in
      do! WriteConfigFile [] in
      modify (set_logged_in true).

(** The [while (++it != end)] loop of [Login] over the entries after the
    first. *)
Fixpoint Login_loop (rest : Map) : M unit :=
  match rest with
  | [] => ret tt
  | (storage_path, service_alias) :: rest' =>
      let! ids := GetIds storage_path in
      do! InitialiseService storage_path service_alias (snd ids) in
      Login_loop rest'
  end.

(** [assert(!confirmation_password_)] is kept as a failure of the call. *)
Definition Login : M unit :=
  let! st := get in
  if logged_in_ st then ret tt
  else
    do! FinaliseInput true in
    let! st1 := get in
    match confirmation_password_ st1 with
    | Some _ => throw (foreign_exception "assert")
    | None =>
        let! service_pairs := ReadConfigFile in
        do! match service_pairs with
            | [] =>
                let! content := ReadFile kConfigFilePath in
                do! CheckConfigFileContent content in
                let! drive_root_id := random_identity in
                MountDrive drive_root_id
            | (storage_path, service_alias) :: rest =>
                let! ids := GetIds storage_path in
                do! MountDrive (fst ids) in
                do! InitialiseService storage_path service_alias (snd ids) in
                Login_loop rest
            end in
        modify (set_logged_in true)
    end.

(** The body of the [try] block of [AddService]. *)
Definition commit_block (storage_path service_alias : string) : M unit :=
  let! st1 := get in
  match pending_service_additions_ st1 !! service_alias with
  | None => throw CommonErrors_invalid_parameter
  | Some ids =>
      do! call_drive (DAddService service_alias storage_path) in
      do! PutIds storage_path (fst ids) (snd ids) in
      modify (fun s => set_pending (delete service_alias (pending_service_additions_ s)) s)
  end.

(** The [lock_guard] is declared at function scope, after [CheckValid]: it is
    held until the function is left. *)
Definition AddService (storage_path service_alias : string) : M unit :=
  let! st := get in
  if negb (logged_in_ st) then throw CommonErrors_uninitialised
  else
    do! CheckValid storage_path service_alias in
    lock_guard
      (do! try_catch_all
             (commit_block storage_path service_alias)
             (throw SureFileErrors_invalid_service) in
       AddConfigEntry storage_path service_alias).

Definition AddServiceFailed (service_alias : string) : M unit :=
  let! st := get in
  if negb (logged_in_ st) then throw CommonErrors_uninitialised
  else
    do! lock_guard
          (let! st1 := get in
           match pending_service_additions_ st1 !! service_alias with
           | None => throw CommonErrors_invalid_parameter
           | Some _ =>
               modify (fun s =>
                 set_pending (delete service_alias (pending_service_additions_ s)) s)
           end) in
    call_drive (DRemoveService service_alias).

(** [std::map::insert] on the pending table: an alias already there keeps its
    pair. *)
Definition OnServiceAdded (service_alias : string)
    (drive_root_id service_root_id : Identity) : M unit :=
  do! lock_guard
        (modify (fun s =>
           match pending_service_additions_ s !! service_alias with
           | Some _ => s
           | None =>
               set_pending (<[service_alias := (drive_root_id, service_root_id)]>
                              (pending_service_additions_ s)) s
           end)) in
  emit (EvOnServiceAdded service_alias).

End Model.

Arguments fs_exists : simpl never.
Arguments SecureKey : simpl never.
Arguments SecureIv : simpl never.
Arguments Password_string : simpl never.
Arguments substr : simpl never.
Arguments size_minus_2 : simpl never.
Arguments kConfigFilePath : simpl never.
Arguments path_append : simpl never.

(** ** The grammar of the mapping line

    The Spirit grammar [grammer] is declared in surefile.h, which is not
    under src/. The spec gives it as "entries are key>value pairs separated
    by ':'", "line 2 (populated case) = path1>alias1:path2>alias2:...",
    written "with the same grammar used by Read": zero or more entries, each
    a non-empty key without '>', a '>', a non-empty value without ':', and a
    ':'. *)

(** Modelled from the spec: a key or a value of [grammer], the longest run of
    characters other than the delimiter that ends it. *)
Fixpoint take_until (stop : ascii) (s : string) : string * string :=
  match s with
  | EmptyString => (EmptyString, EmptyString)
  | String c r =>
      if Ascii.eqb c stop then (EmptyString, s)
      else let (taken, left) := take_until stop r in (String c taken, left)
  end.

(** Modelled from the spec: one entry of [grammer], "key>value" closed by
    ':', with the input after it. *)
Definition parse_pair (s : string) : option (string * string * string) :=
  let (key, after_key) := take_until ">" s in
  match key, after_key with
  | String _ _, String _ s2 =>
      let (value, after_value) := take_until ":" s2 in
      match value, after_value with
      | String _ _, String _ s4 => Some (key, value, s4)
      | _, _ => None
      end
  | _, _ => None
  end.

(** Modelled from the spec: the entries of [grammer] one after the other. As
    Spirit's Kleene star does, the parse stops before the first entry that
    does not match and keeps the entries parsed so far in the attribute, each
    put into the map by [insert]. Every entry takes at least one character,
    so the length of the input is fuel enough. *)
Fixpoint parse_pairs (fuel : nat) (s : string) (attr : Map) : string * Map :=
  match fuel with
  | 0 => (s, attr)
  | S fuel' =>
      match parse_pair s with
      | Some (k, v, rest) => parse_pairs fuel' rest (fst (Map_insert k v attr))
      | None => (s, attr)
      end
  end.

(** Modelled from the spec: [qi::parse] with [grammer] on a line. A Kleene
    star always succeeds; whether input is left is for the caller to test. *)
Definition grammer_spec (line : string) : bool * string * Map :=
  let (rest, attr) := parse_pairs (String.length line) line [] in
  (true, rest, attr).

(** ** A concrete set of collaborators

    Small stand-ins on which the model can be run: a "hash" that pads the
    password to 64 characters, a "cipher" that prefixes the plain text with
    key and IV and refuses to decrypt under another key, a drive whose calls
    all succeed. *)
Fixpoint repeat_char (c : ascii) (n : nat) : string :=
  match n with
  | 0 => EmptyString
  | S n' => String c (repeat_char c n')
  end.

Definition toy_hash (s : string) : string :=
  substring 0 64 (s ++ repeat_char "0" 64).

Definition toy_encrypt (plain key iv : string) : result string :=
  Ok (key ++ iv ++ plain).

Definition toy_decrypt (cipher key iv : string) : result string :=
  if String.prefix (key ++ iv) cipher
  then Ok (substring (String.length (key ++ iv)) (String.length cipher) cipher)
  else Throw (foreign_exception "symmetric_decryption_error").

Definition toy_serialise (d s : Identity) : result string := Ok (d ++ "," ++ s).

Definition toy_parse (s : string) : result (Identity * Identity) :=
  let (d, left) := take_until "," s in
  Ok (d, substring 1 (String.length left) left).

Definition toy : Collaborators := {|
  UserAppDir := "/home/user/.config";
  fs_is_directory := fun p => String.prefix "/data/" p;
  fs_writable := fun _ => true;
  ExcludedFilename := fun a => String.eqb a "desktop.ini";
  kCharRegex_valid := fun _ => true;
  RandomAlphaNumericString := fun _ n => repeat_char "r" n;
  Hash_SHA512 := toy_hash;
  AES256_KeySize := 32;
  AES256_IVSize := 16;
  SymmEncrypt := toy_encrypt;
  SymmDecrypt := toy_decrypt;
  Credentials_Serialise := toy_serialise;
  Credentials_Parse := toy_parse;
  grammer_parse := grammer_spec;
  drive := fun _ => Ok tt
|}.

Definition rootA : Identity := repeat_char "A" 64.
Definition rootB : Identity := repeat_char "B" 64.
Definition rootC : Identity := repeat_char "C" 64.

Definition fresh_state : State := {|
  logged_in_ := false;
  password_ := None;
  confirmation_password_ := None;
  drive_ := None;
  pending_service_additions_ := ∅;
  disk := ∅;
  draws := 0;
  trace := []
|}.

Definition the_password : Password := {| chars := "Abc123!"; finalised := true |}.

Definition wrong_password : Password := {| chars := "letmein"; finalised := true |}.

(** Logged in under "Abc123!", the drive mounted, no service yet. *)
Definition session_state : State :=
  set_drive (Some rootA) (set_password (Some the_password) (set_logged_in true fresh_state)).

(** The same session after [OnServiceAdded("photos", rootA, rootB)]. *)
Definition pending_photos : State :=
  set_pending {[ "photos" := (rootA, rootB) ]} session_state.

(** The config file as [CreateUser] leaves it: the sentinel written under
    "Abc123!". *)
Definition sentinel_content : string :=
  default "" (disk (fst (WriteConfigFile toy [] session_state)) !! kConfigFilePath toy).

(** A later run of the program over a given disk, the password entered. *)
Definition returning_user (p : Password) (files : gmap string string) : State :=
  set_password (Some p) (set_disk files fresh_state).

(** A config file whose mapping line has junk after its one entry. *)
Definition damaged_config : gmap string string :=
  {[ kConfigFilePath toy := kConfigFileComment ++ "/data/photos>photos:junk" ]}.

(** A cipher like [toy]'s, with a drive that cannot attach services. *)
Definition toy_drive_down : Collaborators := {|
  UserAppDir := UserAppDir toy;
  fs_is_directory := fs_is_directory toy;
  fs_writable := fs_writable toy;
  ExcludedFilename := ExcludedFilename toy;
  kCharRegex_valid := kCharRegex_valid toy;
  RandomAlphaNumericString := RandomAlphaNumericString toy;
  Hash_SHA512 := Hash_SHA512 toy;
  AES256_KeySize := AES256_KeySize toy;
  AES256_IVSize := AES256_IVSize toy;
  SymmEncrypt := SymmEncrypt toy;
  SymmDecrypt := SymmDecrypt toy;
  Credentials_Serialise := Credentials_Serialise toy;
  Credentials_Parse := Credentials_Parse toy;
  grammer_parse := grammer_parse toy;
  drive := fun c =>
    match c with
    | DAddService _ _ => Throw (foreign_exception "drive")
    | _ => Ok tt
    end
|}.

(** "photos" is pending, and the config file already maps "/data/photos". *)
Definition duplicate_path : State :=
  set_disk {[ kConfigFilePath toy := kConfigFileComment ++ "/data/photos>holiday:" ]}
           pending_photos.

(** *** Reading the trace *)

Definition is_mutex_event (e : event) : bool :=
  match e with
  | EvLock | EvUnlock => true
  | _ => false
  end.

Definition is_io_event (e : event) : bool :=
  match e with
  | EvDrive _ | EvReadFile _ | EvWriteFile _ => true
  | _ => false
  end.

(** No drive call and no file read or write between taking [mutex_] and
    releasing it. [held] says whether the mutex is held when [evs] starts. *)
Fixpoint io_outside_mutex (held : bool) (evs : list event) : bool :=
  match evs with
  | [] => true
  | EvLock :: r => io_outside_mutex true r
  | EvUnlock :: r => io_outside_mutex false r
  | e :: r => negb (held && is_io_event e) && io_outside_mutex held r
  end.

Definition no_mutex_events (evs : list event) : bool :=
  forallb (fun e => negb (is_mutex_event e)) evs.

(** *** Entries the mapping line can carry *)

Fixpoint has_char (c : ascii) (s : string) : bool :=
  match s with
  | EmptyString => false
  | String x r => Ascii.eqb x c || has_char c r
  end.

(** A storage path the line can carry: not empty, no '>', no newline. *)
Definition plain_key (k : string) : bool :=
  negb (String.eqb k "") && negb (has_char ">" k) && negb (has_char newline k).

(** An alias the line can carry: not empty, no ':', no newline. *)
Definition plain_value (v : string) : bool :=
  negb (String.eqb v "") && negb (has_char ":" v) && negb (has_char newline v).

Definition plain_entry (kv : string * string) : bool :=
  plain_key (fst kv) && plain_value (snd kv).

(** One service whose alias holds both delimiters, and the two services its
    line reads as. *)
Definition one_service : Map := [("/data/x", "one:/data/y>two")].

Definition two_services : Map := [("/data/x", "one"); ("/data/y", "two")].

(** *** Logging in again *)

Definition drive_calls (evs : list event) : list DriveCall :=
  flat_map (fun e => match e with EvDrive c => [c] | _ => [] end) evs.



(** The disk after "music" and then "photos" were added in one session, and
    the next start of the program over it. *)
Definition disk_with_two_services : gmap string string :=
  let st1 := fst (OnServiceAdded "music" rootA rootB session_state) in
  let st2 := fst (AddService toy "/data/music" "music" st1) in
  let st3 := fst (OnServiceAdded "photos" rootA rootC st2) in
  disk (fst (AddService toy "/data/photos" "photos" st3)).

Definition next_start : State := returning_user the_password disk_with_two_services.



(** Both passwords typed in, before [CreateUser]. *)
Definition signing_up : State :=
  set_confirmation_password (Some {| chars := "Abc123!"; finalised := false |})
    (set_password (Some {| chars := "Abc123!"; finalised := false |}) fresh_state).

(** ** The rest of surefile.cc *)

(** [std::map::erase(key)]: the entry with the key goes, and the count of
    entries erased is returned. *)
Fixpoint Map_erase (k : string) (m : Map) : Map * nat :=
  match m with
  | [] => ([], 0)
  | (k', v) :: m' =>
      if String.eqb k k' then (m', 1)
      else let (r, n) := Map_erase k m' in ((k', v) :: r, n)
  end.

Section Callbacks.

Context (env : Collaborators).

Definition CanCreateUser (st : State) : bool :=
  if logged_in_ st then false
  else if fs_exists env (kConfigFilePath env) st then false
  else true.

(** [fs::remove(storage_path / kCredentialsFilename)]: a file that is not
    there is no error; a file the system refuses to remove ([fs_writable]
    stands for the permission) makes [fs::remove] throw. *)
Definition DeleteIds (storage_path : string) : M unit :=
  let file := path_append storage_path kCredentialsFilename in
  let! st := get in
  do! emit (EvWriteFile file) in
  match disk st !! file with
  | None => ret tt
  | Some _ =>
      if fs_writable env file
      then modify (fun s => set_disk (delete file (disk s)) s)
      else throw (foreign_exception "filesystem_error")
  end.

(** The [for] loop of [OnServiceRemoved] from the entry it stands at: the
    first entry whose alias matches is erased by its key from the whole map,
    the map is written, and the loop is left. [assert(result == 1)] is kept
    as a failure of the call. *)
Fixpoint OnServiceRemoved_loop (service_alias : string) (service_pairs remaining : Map)
  : M unit :=
  match remaining with
  | [] => ret tt
  | (storage_path, alias) :: rest =>
      if String.eqb alias service_alias then
        let (service_pairs', result) := Map_erase storage_path service_pairs in
        if Nat.eqb result 1 then WriteConfigFile env service_pairs'
        else throw (foreign_exception "assert")
      else OnServiceRemoved_loop service_alias service_pairs rest
  end.

Definition OnServiceRemoved (service_alias : string) : M unit :=
  let! service_pairs := ReadConfigFile env in
  OnServiceRemoved_loop service_alias service_pairs service_pairs.

(** The [for] loop of [OnServiceRenamed]: [before] are the entries already
    passed; the first entry whose alias matches gets the new alias in place,
    the map is written, and the loop is left. *)
Fixpoint OnServiceRenamed_loop (old_service_alias new_service_alias : string)
    (before remaining : Map) : M unit :=
  match remaining with
  | [] => ret tt
  | (storage_path, alias) :: rest =>
      if String.eqb alias old_service_alias then
        WriteConfigFile env (before ++ (storage_path, new_service_alias) :: rest)%list
      else
        OnServiceRenamed_loop old_service_alias new_service_alias
          (before ++ [(storage_path, alias)])%list rest
  end.

Definition OnServiceRenamed (old_service_alias new_service_alias : string) : M unit :=
  let! service_pairs := ReadConfigFile env in
  OnServiceRenamed_loop old_service_alias new_service_alias [] service_pairs.

End Callbacks.

(** *** [GetMountPath]

    The 32-bit unsigned arithmetic is written out on [Z]. The bitmask of
    [GetLogicalDrives()] is the argument. *)
Definition uint32 (z : Z) : Z := (z mod 2 ^ 32)%Z.

(** The [while ((drive_letters & mask) != 0) { mask <<= 1; ++count; }] loop;
    it gives the count it stops at. The mask is zero after thirty shifts at
    the latest, so the loop stops; [fuel] bounds the number of turns. *)
Fixpoint GetMountPath_loop (fuel : nat) (drive_letters mask count : Z) : option Z :=
  match fuel with
  | 0 => None
  | S fuel' =>
      if Z.eqb (Z.land drive_letters mask) 0 then Some count
      else GetMountPath_loop fuel' drive_letters
             (uint32 (Z.shiftl mask 1)) (uint32 (count + 1))
  end.

Definition GetMountPath (drive_letters : Z) : result string :=
  match GetMountPath_loop 32 drive_letters 4 2 with
  | None => Throw (foreign_exception "loop")
  | Some count =>
      if Z.ltb 25 count then Throw CommonErrors_uninitialised
      else Ok (String (Ascii.ascii_of_nat (65 + Z.to_nat count)) ":")
  end.

(** *** [InsertInput] and [RemoveInput] *)

(** The selector [lifestuff::InputField]: the two fields this file handles,
    and any other value of the enumeration. *)
Inductive InputField : Type :=
| kPassword
| kConfirmationPassword
| kOtherInputField.

(** Modelled from the spec: [new Password()], a buffer with nothing entered. *)
Definition Password_new : Password := {| chars := EmptyString; finalised := false |}.

Section PasswordEntry.

(** [Password::Insert] and [Password::Remove], which are not under src/. *)
Context (Password_Insert : nat -> string -> Password -> result Password).
Context (Password_Remove : nat -> nat -> Password -> result Password).

Definition InsertInput (position : nat) (characters : string) (input_field : InputField)
  : M unit :=
  let! st := get in
  match input_field with
  | kPassword =>
      let p := match password_ st with Some p => p | None => Password_new end in
      do! modify (set_password (Some p)) in
      let! p' := lift (Password_Insert position characters p) in
      modify (set_password (Some p'))
  | kConfirmationPassword =>
      let p := match confirmation_password_ st with
               | Some p => p
               | None => Password_new
               end in
      do! modify (set_confirmation_password (Some p)) in
      let! p' := lift (Password_Insert position characters p) in
      modify (set_confirmation_password (Some p'))
  | kOtherInputField => throw CommonErrors_unknown
  end.

Definition RemoveInput (position length : nat) (input_field : InputField) : M unit :=
  let! st := get in
  match input_field with
  | kPassword =>
      match password_ st with
      | None => throw CommonErrors_uninitialised
      | Some p =>
          let! p' := lift (Password_Remove position length p) in
          modify (set_password (Some p'))
      end
  | kConfirmationPassword =>
      match confirmation_password_ st with
      | None => throw CommonErrors_uninitialised
      | Some p =>
          let! p' := lift (Password_Remove position length p) in
          modify (set_confirmation_password (Some p'))
      end
  | kOtherInputField => throw CommonErrors_unknown
  end.

End PasswordEntry.

(** What is wrong with the input of [CreateUser], if anything: the checks of
    [FinaliseInput(false)] and [ConfirmInput], in their order. *)
Definition input_error (env : Collaborators) (st : State) : option error :=
  match password_ st, confirmation_password_ st with
  | None, _ => Some SureFileErrors_invalid_password
  | Some _, None => Some SureFileErrors_password_confirmation_failed
  | Some p, Some c =>
      if negb (kCharRegex_valid env (Password_string p))
      then Some SureFileErrors_invalid_password
      else if negb (String.eqb (Password_string p) (Password_string c))
      then Some SureFileErrors_password_confirmation_failed
      else None
  end.

(** ** Tactics for running the monad *)

Ltac run_monad :=
  unfold bind, get, ret, throw, modify, lift, emit, lock_guard, try_catch_all; simpl.

(** Like [run_monad], but without unfolding anything of the model. *)
Ltac reduce_state :=
  cbv beta iota zeta;
  cbn [logged_in_ password_ confirmation_password_ drive_ pending_service_additions_
       disk draws trace fst snd negb orb andb add_events set_logged_in set_password
       set_confirmation_password set_drive set_pending set_disk set_draws].

Ltac open_monad :=
  unfold bind, get, ret, throw, modify, lift, emit, lock_guard, try_catch_all;
  reduce_state.

(** * Properties *)

(** ** State bookkeeping *)

Lemma add_events_twice (a b : list event) (st : State) :
  add_events b (add_events a st) = add_events (a ++ b) st.
Proof. unfold add_events; simpl. by rewrite app_assoc. Qed.

Lemma add_events_nil (st : State) : add_events [] st = st.
Proof. destruct st; unfold add_events; simpl. by rewrite app_nil_r. Qed.

(** ** Substrings *)

Lemma substring_length (s : string) : forall n m,
  n + m <= String.length s -> String.length (substring n m s) = m.
Proof.
  induction s as [|c s IH]; intros [|n] [|m] Hlen; simpl in *; try lia; auto.
  - rewrite (IH 0 m); [reflexivity | lia].
  - apply IH; lia.
  - apply IH; lia.
Qed.

Lemma append_empty_l (s : string) : EmptyString ++ s = s.
Proof. reflexivity. Qed.

Lemma append_cons (c : ascii) (a b : string) : String c a ++ b = String c (a ++ b).
Proof. reflexivity. Qed.

Lemma substring_0_0 (s : string) : substring 0 0 s = EmptyString.
Proof. by destruct s. Qed.

Lemma substring_split (s : string) : forall n m,
  n + m <= String.length s ->
  s = substring 0 n s ++ substring n m s
        ++ substring (n + m) (String.length s - (n + m)) s.
Proof.
  induction s as [|c s IH]; intros n m Hlen.
  - simpl in Hlen. assert (n = 0) by lia; assert (m = 0) by lia; subst; reflexivity.
  - simpl in Hlen. destruct n as [|n].
    + destruct m as [|m].
      * specialize (IH 0 0 ltac:(lia)). rewrite substring_0_0 in IH.
        rewrite !append_empty_l, Nat.sub_0_r in IH.
        simpl. rewrite !append_empty_l. by f_equal.
      * specialize (IH 0 m ltac:(lia)). rewrite substring_0_0 in IH.
        rewrite append_empty_l in IH.
        simpl. rewrite append_empty_l, append_cons. by f_equal.
    + specialize (IH n m ltac:(lia)). simpl. rewrite append_cons. by f_equal.
Qed.

(** ** Early return of [CreateUser] and [Login] *)

(** C9: called while [logged_in_] is already true, [CreateUser] and [Login]
    return at once without an error and leave the whole state as it was: the
    password buffers, the files, the random draws, the drive and the trace of
    outside effects (so nothing was read, written, generated or mounted). *)
Theorem logged_in_calls_return_unchanged (env : Collaborators) (st : State) :
  logged_in_ st = true ->
  CreateUser env st = (st, Ok tt) /\ Login env st = (st, Ok tt).
Proof.
  intros Hin. unfold CreateUser, Login. run_monad. rewrite Hin. split; reflexivity.
Qed.

Lemma logged_in_calls_return_unchanged_witness :
  CreateUser toy session_state = (session_state, Ok tt)
  /\ Login toy session_state = (session_state, Ok tt).
Proof. apply (logged_in_calls_return_unchanged toy session_state). reflexivity. Defined.

(** ** [OnServiceAdded] for an alias that is already pending *)

(** C10: when the pending table already has an entry for the alias, the
    callback leaves the table as it is (the entry keeps its pair of
    identities; the delivered pair is dropped) and still calls the
    [on_service_added] slot with the alias, after the mutex is released. *)
Theorem OnServiceAdded_keeps_existing_entry (st : State)
    (service_alias : string) (drive_root_id service_root_id : Identity)
    (ids : Identity * Identity) :
  pending_service_additions_ st !! service_alias = Some ids ->
  OnServiceAdded service_alias drive_root_id service_root_id st
    = (add_events [EvLock; EvUnlock; EvOnServiceAdded service_alias] st, Ok tt)
  /\ pending_service_additions_
       (fst (OnServiceAdded service_alias drive_root_id service_root_id st))
     = pending_service_additions_ st.
Proof.
  intros Hold.
  assert (Hrun : OnServiceAdded service_alias drive_root_id service_root_id st
    = (add_events [EvLock; EvUnlock; EvOnServiceAdded service_alias] st, Ok tt)).
  { unfold OnServiceAdded. run_monad. rewrite Hold.
    unfold add_events; simpl. by rewrite <- !app_assoc. }
  split; [exact Hrun | by rewrite Hrun].
Qed.

Lemma OnServiceAdded_keeps_existing_entry_witness :
  OnServiceAdded "photos" rootC rootC pending_photos
    = (add_events [EvLock; EvUnlock; EvOnServiceAdded "photos"] pending_photos, Ok tt)
  /\ pending_service_additions_ (fst (OnServiceAdded "photos" rootC rootC pending_photos))
     = pending_service_additions_ pending_photos.
Proof.
  apply (OnServiceAdded_keeps_existing_entry pending_photos "photos" rootC rootC
           (rootA, rootB)).
  reflexivity.
Defined.

(** ** [AddService] without a pending entry *)

(** C1 (what the code does): logged in, with an existing storage path and an
    alias that is not excluded, [AddService] for an alias with no pending
    entry takes and releases the mutex and changes nothing else, but the
    [invalid_parameter] thrown inside the [try] block is caught by
    [catch (...)] and the caller receives [invalid_service]. *)
Theorem AddService_without_pending_entry (env : Collaborators) (st : State)
    (storage_path service_alias : string) :
  logged_in_ st = true ->
  fs_exists env storage_path st = true ->
  ExcludedFilename env service_alias = false ->
  pending_service_additions_ st !! service_alias = None ->
  AddService env storage_path service_alias st
    = (add_events [EvLock; EvUnlock] st, Throw SureFileErrors_invalid_service).
Proof.
  intros Hin Hex Hname Hnone.
  unfold AddService, CheckValid, commit_block. run_monad.
  rewrite Hin; simpl. rewrite Hex, Hname; simpl. rewrite Hnone.
  unfold add_events; simpl. by rewrite <- app_assoc.
Qed.

Lemma AddService_without_pending_entry_witness :
  AddService toy "/data/photos" "photos" session_state
    = (add_events [EvLock; EvUnlock] session_state, Throw SureFileErrors_invalid_service).
Proof.
  apply (AddService_without_pending_entry toy session_state "/data/photos" "photos");
    reflexivity.
Defined.

(** ** Key derivation *)

(** C5: for a finalised password whose hash is long enough for a key and an
    IV (SHA-512 gives 64 bytes), the secure password is the hash of the
    password's text, the key is its first [AES256_KeySize] bytes, the IV the
    next [AES256_IVSize] bytes (the hash is key, then IV, then the rest), and
    the three depend on the password alone: any state holding this password
    derives the same values. *)
Theorem key_derivation_slices (env : Collaborators) (p : Password) (st : State) :
  finalised p = true ->
  AES256_KeySize env + AES256_IVSize env
    <= String.length (Hash_SHA512 env (Password_string p)) ->
  password_ st = Some p ->
  let hash := Hash_SHA512 env (Password_string p) in
  let key := substring 0 (AES256_KeySize env) hash in
  let iv := substring (AES256_KeySize env) (AES256_IVSize env) hash in
  SecurePassword env st = (st, Ok hash)
  /\ SecureKey env hash = Ok key
  /\ SecureIv env hash = Ok iv
  /\ String.length key = AES256_KeySize env
  /\ String.length iv = AES256_IVSize env
  /\ exists rest, hash = key ++ iv ++ rest.
Proof.
  intros _ Hlen Hpw hash key iv. subst hash key iv.
  set (hash := Hash_SHA512 env (Password_string p)) in *.
  repeat split.
  - unfold SecurePassword. run_monad. by rewrite Hpw.
  - unfold SecureIv, substr.
    destruct (Nat.leb_spec (AES256_KeySize env) (String.length hash)); [reflexivity | lia].
  - apply (substring_length hash 0); lia.
  - apply substring_length; lia.
  - eexists. apply substring_split. exact Hlen.
Qed.

Lemma key_derivation_slices_witness :
  SecurePassword toy session_state = (session_state, Ok (toy_hash "Abc123!"))
  /\ SecureKey toy (toy_hash "Abc123!") = Ok (substring 0 32 (toy_hash "Abc123!"))
  /\ SecureIv toy (toy_hash "Abc123!") = Ok (substring 32 16 (toy_hash "Abc123!"))
  /\ String.length (substring 0 32 (toy_hash "Abc123!")) = 32
  /\ String.length (substring 32 16 (toy_hash "Abc123!")) = 16
  /\ exists rest, toy_hash "Abc123!"
       = substring 0 32 (toy_hash "Abc123!") ++ substring 32 16 (toy_hash "Abc123!") ++ rest.
Proof.
  apply (key_derivation_slices toy the_password session_state).
  - reflexivity.
  - vm_compute. lia.
  - reflexivity.
Defined.

(** ** Verifying the sentinel *)

Lemma session_keys_of_password (env : Collaborators) (st : State) (p : Password)
    (key iv : string) :
  password_ st = Some p ->
  SecureKey env (Hash_SHA512 env (Password_string p)) = Ok key ->
  SecureIv env (Hash_SHA512 env (Password_string p)) = Ok iv ->
  session_keys env st = (st, Ok (key, iv)).
Proof.
  intros Hpw Hkey Hiv. unfold session_keys, SecurePassword. open_monad.
  rewrite Hpw; reduce_state. rewrite Hkey; reduce_state. by rewrite Hiv.
Qed.

(** The sentinel line is '#', the cipher text and a newline; [substr(1,
    size - 2)] gives the cipher text back, whatever bytes it holds. *)
Lemma substring_drop_last (s : string) (c : ascii) :
  substring 0 (String.length s) (s ++ String c EmptyString) = s.
Proof.
  induction s as [|x s IH]; [reflexivity |].
  rewrite append_cons. simpl. by rewrite IH.
Qed.

Lemma append_length (a b : string) :
  String.length (a ++ b) = String.length a + String.length b.
Proof.
  induction a as [|x a IH]; [reflexivity |].
  rewrite append_cons. simpl. by rewrite IH.
Qed.

Lemma sentinel_cipher_text (cipher : string) :
  let content := "#" ++ cipher ++ String newline EmptyString in
  substr content 1 (size_minus_2 (String.length content)) = Ok cipher.
Proof.
  simpl. rewrite append_cons, append_empty_l.
  unfold substr, size_minus_2. simpl String.length.
  rewrite append_length. simpl String.length.
  replace (Nat.ltb (S (String.length cipher + 1)) 2) with false
    by (symmetry; apply Nat.ltb_ge; lia).
  replace (S (String.length cipher + 1) - 2) with (String.length cipher) by lia.
  simpl. by rewrite substring_drop_last.
Qed.

(** C4 (as the code has it): with the keys of the current password,
    - the sentinel written under this password verifies, without error and
      without a change of state, when the cipher decrypts what it encrypted;
    - content that decrypts to anything but the comment raises
      [invalid_password] and discards the password buffer;
    - when the decryption itself throws, that exception reaches the caller
      as it is and the password buffer is kept. *)
Theorem CheckConfigFileContent_outcomes (env : Collaborators) (st : State)
    (p : Password) (key iv : string) :
  password_ st = Some p ->
  SecureKey env (Hash_SHA512 env (Password_string p)) = Ok key ->
  SecureIv env (Hash_SHA512 env (Password_string p)) = Ok iv ->
  (forall cipher,
     EncryptComment env st = (st, Ok cipher) ->
     SymmDecrypt env cipher key iv = Ok kConfigFileComment ->
     CheckConfigFileContent env ("#" ++ cipher ++ String newline EmptyString) st
       = (st, Ok tt))
  /\ (forall content cipher_text,
        substr content 1 (size_minus_2 (String.length content)) = Ok cipher_text ->
        match SymmDecrypt env cipher_text key iv with
        | Ok plain_text =>
            if String.eqb plain_text kConfigFileComment
            then CheckConfigFileContent env content st = (st, Ok tt)
            else CheckConfigFileContent env content st
                   = (set_password None st, Throw SureFileErrors_invalid_password)
        | Throw e => CheckConfigFileContent env content st = (st, Throw e)
        end).
Proof.
  intros Hpw Hkey Hiv.
  pose proof (session_keys_of_password env st p key iv Hpw Hkey Hiv) as Hkeys.
  assert (Hgen : forall content cipher_text,
    substr content 1 (size_minus_2 (String.length content)) = Ok cipher_text ->
    match SymmDecrypt env cipher_text key iv with
    | Ok plain_text =>
        if String.eqb plain_text kConfigFileComment
        then CheckConfigFileContent env content st = (st, Ok tt)
        else CheckConfigFileContent env content st
               = (set_password None st, Throw SureFileErrors_invalid_password)
    | Throw e => CheckConfigFileContent env content st = (st, Throw e)
    end).
  { intros content cipher_text Hsub.
    unfold CheckConfigFileContent, ResetPassword. open_monad.
    rewrite Hkeys; reduce_state. rewrite Hsub; reduce_state.
    destruct (SymmDecrypt env cipher_text key iv) as [plain|e]; [| reflexivity].
    destruct (String.eqb plain kConfigFileComment); reflexivity. }
  split; [| exact Hgen].
  intros cipher _ Hdec.
  specialize (Hgen _ _ (sentinel_cipher_text cipher)).
  rewrite Hdec, String.eqb_refl in Hgen. exact Hgen.
Qed.

Lemma CheckConfigFileContent_outcomes_witness :
  CheckConfigFileContent toy sentinel_content session_state = (session_state, Ok tt).
Proof.
  refine (proj1 (CheckConfigFileContent_outcomes toy session_state the_password
                   (substring 0 32 (toy_hash "Abc123!"))
                   (substring 32 16 (toy_hash "Abc123!")) _ _ _)
                (substring 0 48 (toy_hash "Abc123!") ++ kConfigFileComment) _ _);
    reflexivity.
Defined.

(** C4, the case the claim includes and the code does not handle: the
    sentinel written under "Abc123!" is checked under another password and the
    cipher refuses to decrypt. The exception of the cipher reaches the caller,
    not [invalid_password], and the password buffer is still there. *)
Lemma decrypt_failure_is_not_invalid_password :
  CheckConfigFileContent toy sentinel_content (returning_user wrong_password ∅)
    = (returning_user wrong_password ∅,
       Throw (foreign_exception "symmetric_decryption_error"))
  /\ password_ (fst (CheckConfigFileContent toy sentinel_content
                       (returning_user wrong_password ∅))) = Some wrong_password.
Proof. split; reflexivity. Qed.

(** ** Parse failures of the mapping line *)

(** C6 (as the code has it): when the config file has at least two lines and
    the parse of the second one fails (the grammar reports failure, or input
    is left over), [ReadConfigFile] calls the [configuration_error] slot once
    and returns, without raising anything, the entries the parser had stored
    in [service_pairs] before it stopped; the map is not cleared. *)
Theorem ReadConfigFile_parse_failure (env : Collaborators) (st : State)
    (line0 line1 : string) (more : list string)
    (result : bool) (rest : string) (service_pairs : Map) :
  getlines (default "" (disk st !! kConfigFilePath env)) = line0 :: line1 :: more ->
  grammer_parse env line1 = (result, rest, service_pairs) ->
  result = false \/ rest <> "" ->
  ReadConfigFile env st
    = (add_events [EvReadFile (kConfigFilePath env); EvConfigurationError] st,
       Ok service_pairs).
Proof.
  intros Hlines Hparse Hfail.
  unfold ReadConfigFile. run_monad. rewrite Hlines, Hparse.
  assert (Hflag : negb result || negb (String.eqb rest "") = true).
  { destruct Hfail as [-> | Hrest]; [reflexivity |].
    destruct (String.eqb_spec rest ""); [contradiction |]. by rewrite orb_true_r. }
  rewrite Hflag. simpl. unfold add_events; simpl. by rewrite <- app_assoc.
Qed.

Lemma ReadConfigFile_parse_failure_witness :
  ReadConfigFile toy (returning_user the_password damaged_config)
    = (add_events [EvReadFile (kConfigFilePath toy); EvConfigurationError]
         (returning_user the_password damaged_config),
       Ok [("/data/photos", "photos")]).
Proof.
  apply (ReadConfigFile_parse_failure toy (returning_user the_password damaged_config)
           "# Please do NOT edit." "/data/photos>photos:junk" [] true "junk").
  - reflexivity.
  - reflexivity.
  - right. discriminate.
Defined.

(** C6, where the claim fails: one good entry followed by junk. The slot is
    called and nothing is raised, but the mapping returned holds the entry
    parsed before the junk. *)
Lemma parse_failure_returns_parsed_entries :
  snd (ReadConfigFile toy (returning_user the_password damaged_config))
    = Ok [("/data/photos", "photos")]
  /\ snd (ReadConfigFile toy (returning_user the_password damaged_config)) <> Ok []
  /\ trace (fst (ReadConfigFile toy (returning_user the_password damaged_config)))
     = [EvReadFile (kConfigFilePath toy); EvConfigurationError].
Proof. repeat split; try reflexivity. discriminate. Qed.

(** ** Error kinds of [AddService] *)

Lemma Map_insert_not_empty (k v : string) (m : Map) : fst (Map_insert k v m) <> [].
Proof.
  destruct m as [|[k' v'] m]; simpl; [discriminate |].
  destruct (String.compare k k'); try discriminate.
  destruct (Map_insert k v m); discriminate.
Qed.

(** What [ReadConfigFile] changes: the trace. *)
Lemma ReadConfigFile_state (env : Collaborators) (st st' : State) (r : result Map) :
  ReadConfigFile env st = (st', r) ->
  exists evs m, st' = add_events evs st /\ r = Ok m
    /\ (evs = [EvReadFile (kConfigFilePath env)]
        \/ evs = [EvReadFile (kConfigFilePath env); EvConfigurationError]).
Proof.
  unfold ReadConfigFile. open_monad.
  destruct (getlines _) as [|line0 [|line1 more]];
    try (intros [= <- <-]; eexists _, _; split; [reflexivity | split; [reflexivity | by left]]).
  destruct (grammer_parse env line1) as [[result rest] m].
  destruct (negb result || negb (String.eqb rest "")); open_monad; intros [= <- <-].
  - eexists _, _; split; [| split; [reflexivity | by right]].
    by rewrite add_events_twice.
  - eexists _, _; split; [reflexivity | split; [reflexivity | by left]].
Qed.

(** [AddConfigEntry] fails with [invalid_parameter] only, and touches neither
    the pending table nor any file but the config file. *)
Lemma AddConfigEntry_outcome (env : Collaborators) (storage_path service_alias : string)
    (st st' : State) (r : result unit) :
  AddConfigEntry env storage_path service_alias st = (st', r) ->
  (r = Ok tt \/ r = Throw CommonErrors_invalid_parameter)
  /\ pending_service_additions_ st' = pending_service_additions_ st
  /\ forall path, is_Some (disk st !! path) -> is_Some (disk st' !! path).
Proof.
  unfold AddConfigEntry, bind.
  destruct (ReadConfigFile env st) as [st1 r1] eqn:Hread.
  destruct (ReadConfigFile_state env st st1 r1 Hread) as (evs & m & -> & -> & _).
  destruct (Map_find storage_path m).
  { open_monad. intros [= <- <-]. split; [by right | split; [reflexivity | auto]]. }
  pose proof (Map_insert_not_empty storage_path service_alias m) as Hne.
  destruct (Map_insert storage_path service_alias m) as [m' inserted]. simpl in Hne.
  destruct inserted;
    [| open_monad; intros [= <- <-]; split; [by right | split; [reflexivity | auto]]].
  unfold WriteConfigFile. destruct m' as [|entry m']; [contradiction |].
  unfold WriteFile. open_monad.
  destruct (fs_writable env (kConfigFilePath env)); open_monad; intros [= <- <-].
  - split; [by left | split; [reflexivity |]].
    intros path Hsome. simpl.
    destruct (decide (kConfigFilePath env = path)) as [<- | Hne'].
    + rewrite lookup_insert_eq. by eexists.
    + by rewrite lookup_insert_ne.
  - split; [by right | split; [reflexivity | auto]].
Qed.

(** Whatever goes wrong inside the [try] block of [AddService] leaves the
    pending table as it was; when the block completes it has written the
    credential file and erased the entry. *)
Lemma commit_block_outcome (env : Collaborators) (storage_path service_alias : string)
    (st st' : State) (r : result unit) :
  commit_block env storage_path service_alias st = (st', r) ->
  match r with
  | Ok _ =>
      is_Some (pending_service_additions_ st !! service_alias)
      /\ pending_service_additions_ st'
         = delete service_alias (pending_service_additions_ st)
      /\ is_Some (disk st' !! path_append storage_path kCredentialsFilename)
  | Throw _ => pending_service_additions_ st' = pending_service_additions_ st
  end.
Proof.
  unfold commit_block, call_drive, PutIds, session_keys, SecurePassword, WriteFile.
  open_monad.
  destruct (pending_service_additions_ st !! service_alias) as [ids|] eqn:Hids;
    [| by intros [= <- <-]].
  destruct (drive env (DAddService service_alias storage_path)) as [[]|e0] eqn:Hdrive;
    [| by intros [= <- <-]].
  reduce_state.
  destruct (password_ st); [| by intros [= <- <-]]. reduce_state.
  destruct (SecureKey env _); [| by intros [= <- <-]]. reduce_state.
  destruct (SecureIv env _); [| by intros [= <- <-]]. reduce_state.
  destruct (Credentials_Serialise env _ _); [| by intros [= <- <-]]. reduce_state.
  destruct (SymmEncrypt env _ _ _); [| by intros [= <- <-]]. reduce_state.
  destruct (fs_writable env _); reduce_state; intros [= <- <-]; [| reflexivity].
  repeat split; [by eexists | ].
  simpl. rewrite lookup_insert_eq. by eexists.
Qed.

Lemma AddService_commit_failure (env : Collaborators) (st st1 : State)
    (storage_path service_alias : string) (e0 : error) :
  logged_in_ st = true ->
  fs_exists env storage_path st = true ->
  ExcludedFilename env service_alias = false ->
  commit_block env storage_path service_alias (add_events [EvLock] st) = (st1, Throw e0) ->
  AddService env storage_path service_alias st
    = (add_events [EvUnlock] st1, Throw SureFileErrors_invalid_service).
Proof.
  intros Hin Hex Hname Hcommit.
  unfold AddService, CheckValid. open_monad.
  rewrite Hin; reduce_state. rewrite Hex, Hname; reduce_state.
  fold (add_events [EvLock] st). by rewrite Hcommit.
Qed.

Lemma AddService_after_commit (env : Collaborators) (st st1 st2 : State)
    (storage_path service_alias : string) (r : result unit) :
  logged_in_ st = true ->
  fs_exists env storage_path st = true ->
  ExcludedFilename env service_alias = false ->
  commit_block env storage_path service_alias (add_events [EvLock] st) = (st1, Ok tt) ->
  AddConfigEntry env storage_path service_alias st1 = (st2, r) ->
  AddService env storage_path service_alias st = (add_events [EvUnlock] st2, r).
Proof.
  intros Hin Hex Hname Hcommit Hentry.
  unfold AddService, CheckValid. open_monad.
  rewrite Hin; reduce_state. rewrite Hex, Hname; reduce_state.
  fold (add_events [EvLock] st). rewrite Hcommit. by rewrite Hentry.
Qed.

Lemma AddService_invalid (env : Collaborators) (st : State)
    (storage_path service_alias : string) :
  logged_in_ st = true ->
  negb (fs_exists env storage_path st) || ExcludedFilename env service_alias = true ->
  AddService env storage_path service_alias st
    = (st, Throw SureFileErrors_invalid_service).
Proof.
  intros Hin Hbad. unfold AddService, CheckValid. open_monad.
  rewrite Hin; reduce_state. by rewrite Hbad.
Qed.

(** Every failure of [AddService] is one of two kinds. *)
Lemma AddService_failure_classified (env : Collaborators) (st st' : State)
    (storage_path service_alias : string) (e : error) :
  logged_in_ st = true ->
  AddService env storage_path service_alias st = (st', Throw e) ->
  (e = SureFileErrors_invalid_service
   /\ pending_service_additions_ st' = pending_service_additions_ st)
  \/ (e = CommonErrors_invalid_parameter
      /\ is_Some (pending_service_additions_ st !! service_alias)
      /\ pending_service_additions_ st'
         = delete service_alias (pending_service_additions_ st)
      /\ is_Some (disk st' !! path_append storage_path kCredentialsFilename)).
Proof.
  intros Hin Hrun.
  destruct (negb (fs_exists env storage_path st) || ExcludedFilename env service_alias)
    eqn:Hvalid.
  { rewrite (AddService_invalid env st _ _ Hin Hvalid) in Hrun.
    injection Hrun as <- <-. by left. }
  apply orb_false_elim in Hvalid as [Hex Hname]. apply negb_false_iff in Hex.
  destruct (commit_block env storage_path service_alias (add_events [EvLock] st))
    as [st1 [[]|e0]] eqn:Hcommit.
  - destruct (AddConfigEntry env storage_path service_alias st1) as [st2 r] eqn:Hentry.
    rewrite (AddService_after_commit env st st1 st2 _ _ r Hin Hex Hname Hcommit Hentry)
      in Hrun.
    injection Hrun as <- ->.
    apply commit_block_outcome in Hcommit as (Hsome & Hpending & Hfile).
    apply AddConfigEntry_outcome in Hentry as ([Hr | Hr] & Hsame & Hfiles);
      [discriminate | injection Hr as <-].
    right. repeat split.
    + exact Hsome.
    + simpl. by rewrite Hsame, Hpending.
    + simpl. by apply Hfiles.
  - rewrite (AddService_commit_failure env st st1 _ _ e0 Hin Hex Hname Hcommit) in Hrun.
    injection Hrun as <- <-.
    apply commit_block_outcome in Hcommit. left. split; [reflexivity |].
    simpl. by rewrite Hcommit.
Qed.

(** C2 (as the code has it): while logged in, with a storage path and an
    alias that pass [CheckValid],
    - whatever is thrown inside the [try] block (by the drive attach, by the
      credential-file write) reaches the caller as [invalid_service];
    - once the [try] block has completed, the outcome of [AddConfigEntry],
      which runs after it, reaches the caller as it is;
    - so a failure of [AddService] is [invalid_service] with the pending
      table as it was, or [invalid_parameter] from [AddConfigEntry] with the
      pending entry already erased and the credential file already written,
      and nothing else. *)
Theorem AddService_failure_kinds (env : Collaborators) (st : State)
    (storage_path service_alias : string) :
  logged_in_ st = true ->
  fs_exists env storage_path st = true ->
  ExcludedFilename env service_alias = false ->
  (forall st1 e0,
     commit_block env storage_path service_alias (add_events [EvLock] st)
       = (st1, Throw e0) ->
     AddService env storage_path service_alias st
       = (add_events [EvUnlock] st1, Throw SureFileErrors_invalid_service))
  /\ (forall st1 st2 r,
        commit_block env storage_path service_alias (add_events [EvLock] st)
          = (st1, Ok tt) ->
        AddConfigEntry env storage_path service_alias st1 = (st2, r) ->
        AddService env storage_path service_alias st = (add_events [EvUnlock] st2, r)
        /\ (r = Ok tt \/ r = Throw CommonErrors_invalid_parameter))
  /\ (forall st' e,
        AddService env storage_path service_alias st = (st', Throw e) ->
        (e = SureFileErrors_invalid_service
         /\ pending_service_additions_ st' = pending_service_additions_ st)
        \/ (e = CommonErrors_invalid_parameter
            /\ is_Some (pending_service_additions_ st !! service_alias)
            /\ pending_service_additions_ st'
               = delete service_alias (pending_service_additions_ st)
            /\ is_Some (disk st' !! path_append storage_path kCredentialsFilename))).
Proof.
  intros Hin Hex Hname. split; [| split].
  - intros st1 e0 Hcommit. by apply (AddService_commit_failure env st st1 _ _ e0).
  - intros st1 st2 r Hcommit Hentry. split.
    + by apply (AddService_after_commit env st st1 st2).
    + by apply AddConfigEntry_outcome in Hentry as (Hr & _).
  - intros st' e. by apply AddService_failure_classified.
Qed.

(** The drive refuses to attach: the caller sees [invalid_service], and the
    pending entry is still there. *)
Lemma AddService_failure_kinds_witness :
  AddService toy_drive_down "/data/photos" "photos" pending_photos
    = (add_events [EvLock; EvDrive (DAddService "photos" "/data/photos"); EvUnlock]
         pending_photos,
       Throw SureFileErrors_invalid_service).
Proof.
  refine (proj1 (AddService_failure_kinds toy_drive_down pending_photos
                   "/data/photos" "photos" _ _ _)
                (add_events [EvLock; EvDrive (DAddService "photos" "/data/photos")]
                   pending_photos)
                (foreign_exception "drive") _);
    reflexivity.
Defined.

(** C2, where the claim fails: the pending entry is there, the drive attaches
    the service, the credential file is written, the pending entry is erased,
    and then the config file turns out to hold the storage path already.
    [AddConfigEntry] throws [invalid_parameter] outside the [try] block and
    the caller receives it. *)
Lemma duplicate_path_surfaces_invalid_parameter :
  snd (AddService toy "/data/photos" "photos" duplicate_path)
    = Throw CommonErrors_invalid_parameter
  /\ pending_service_additions_ (fst (AddService toy "/data/photos" "photos" duplicate_path))
     !! "photos" = None.
Proof. split; reflexivity. Qed.

(** ** Where the mutex is held *)

Lemma no_mutex_events_app (a b : list event) :
  no_mutex_events a = true -> no_mutex_events b = true ->
  no_mutex_events (a ++ b)%list = true.
Proof. unfold no_mutex_events. rewrite forallb_app. by intros -> ->. Qed.

Lemma commit_block_trace (env : Collaborators) (storage_path service_alias : string)
    (st st' : State) (r : result unit) :
  commit_block env storage_path service_alias st = (st', r) ->
  exists evs, trace st' = (trace st ++ evs)%list
    /\ no_mutex_events evs = true
    /\ (r = Ok tt ->
        evs = [EvDrive (DAddService service_alias storage_path);
               EvWriteFile (path_append storage_path kCredentialsFilename)]).
Proof.
  unfold commit_block, call_drive, PutIds, session_keys, SecurePassword, WriteFile.
  open_monad.
  destruct (pending_service_additions_ st !! service_alias) as [ids|].
  2: { intros [= <- <-]. exists []. by rewrite app_nil_r. }
  destruct (drive env (DAddService service_alias storage_path)) as [[]|e0].
  2: { intros [= <- <-]. by eexists. }
  reduce_state.
  destruct (password_ st); [| intros [= <- <-]; by eexists]. reduce_state.
  destruct (SecureKey env _); [| intros [= <- <-]; by eexists]. reduce_state.
  destruct (SecureIv env _); [| intros [= <- <-]; by eexists]. reduce_state.
  destruct (Credentials_Serialise env _ _); [| intros [= <- <-]; by eexists]. reduce_state.
  destruct (SymmEncrypt env _ _ _); [| intros [= <- <-]; by eexists]. reduce_state.
  destruct (fs_writable env _); reduce_state; intros [= <- <-]; reduce_state;
    rewrite <- app_assoc; by eexists.
Qed.

Lemma AddConfigEntry_trace (env : Collaborators) (storage_path service_alias : string)
    (st st' : State) (r : result unit) :
  AddConfigEntry env storage_path service_alias st = (st', r) ->
  exists evs, trace st' = (trace st ++ evs)%list
    /\ no_mutex_events evs = true
    /\ (r = Ok tt ->
        exists mid, evs = ([EvReadFile (kConfigFilePath env)] ++ mid
                             ++ [EvWriteFile (kConfigFilePath env)])%list
          /\ (mid = [] \/ mid = [EvConfigurationError])).
Proof.
  unfold AddConfigEntry, bind.
  destruct (ReadConfigFile env st) as [st1 r1] eqn:Hread.
  destruct (ReadConfigFile_state env st st1 r1 Hread) as (evs & m & -> & -> & Hevs).
  assert (Hquiet : no_mutex_events evs = true) by (by destruct Hevs as [-> | ->]).
  destruct (Map_find storage_path m).
  { open_monad. intros [= <- <-]. by exists evs. }
  pose proof (Map_insert_not_empty storage_path service_alias m) as Hne.
  destruct (Map_insert storage_path service_alias m) as [m' inserted]. simpl in Hne.
  destruct inserted; [| open_monad; intros [= <- <-]; by exists evs].
  unfold WriteConfigFile. destruct m' as [|entry m']; [contradiction |].
  unfold WriteFile. open_monad.
  destruct (fs_writable env (kConfigFilePath env)); open_monad; intros [= <- <-].
  - exists (evs ++ [EvWriteFile (kConfigFilePath env)])%list.
    split; [by rewrite app_assoc |]. split; [by apply no_mutex_events_app |].
    intros _. destruct Hevs as [-> | ->].
    + exists []. split; [reflexivity | by left].
    + exists [EvConfigurationError]. split; [reflexivity | by right].
  - exists (evs ++ [EvWriteFile (kConfigFilePath env)])%list.
    split; [by rewrite app_assoc |]. split; [by apply no_mutex_events_app | discriminate].
Qed.

(** C8 (as the code has it): [AddServiceFailed] and [OnServiceAdded] scope
    the lock to a block around the table operation, so no drive call and no
    file I/O happens while they hold the mutex. [AddService] declares its
    lock at function scope: whatever it does after validation (the lookup,
    the drive attach, the credential-file write, the erase, and the read and
    write of the config file in [AddConfigEntry]) happens between one lock
    and the unlock that ends the call; a call that succeeds has done the
    attach, both writes and the read under the mutex. *)
Theorem mutex_scopes (env : Collaborators) (st : State)
    (storage_path service_alias : string) (drive_root_id service_root_id : Identity) :
  (exists evs,
     trace (fst (AddServiceFailed env service_alias st)) = (trace st ++ evs)%list
     /\ io_outside_mutex false evs = true)
  /\ (exists evs,
        trace (fst (OnServiceAdded service_alias drive_root_id service_root_id st))
          = (trace st ++ evs)%list
        /\ io_outside_mutex false evs = true)
  /\ (exists evs,
        trace (fst (AddService env storage_path service_alias st)) = (trace st ++ evs)%list
        /\ (evs = []
            \/ exists body, evs = (EvLock :: body ++ [EvUnlock])%list
                 /\ no_mutex_events body = true
                 /\ (snd (AddService env storage_path service_alias st) = Ok tt ->
                     exists mid,
                       body = ([EvDrive (DAddService service_alias storage_path);
                                EvWriteFile (path_append storage_path kCredentialsFilename);
                                EvReadFile (kConfigFilePath env)]
                               ++ mid ++ [EvWriteFile (kConfigFilePath env)])%list
                       /\ (mid = [] \/ mid = [EvConfigurationError])))).
Proof.
  split; [| split].
  - unfold AddServiceFailed, call_drive. open_monad.
    destruct (logged_in_ st); reduce_state; [| exists []; by rewrite app_nil_r].
    destruct (pending_service_additions_ st !! service_alias); reduce_state;
      rewrite <- ?app_assoc; by eexists.
  - unfold OnServiceAdded. open_monad.
    destruct (pending_service_additions_ st !! service_alias); reduce_state;
      rewrite <- ?app_assoc; by eexists.
  - destruct (logged_in_ st) eqn:Hin.
    2: { exists []. unfold AddService. open_monad. rewrite Hin. reduce_state.
         split; [by rewrite app_nil_r | by left]. }
    destruct (negb (fs_exists env storage_path st) || ExcludedFilename env service_alias)
      eqn:Hvalid.
    { rewrite (AddService_invalid env st _ _ Hin Hvalid). exists [].
      split; [by rewrite app_nil_r | by left]. }
    apply orb_false_elim in Hvalid as [Hex Hname]. apply negb_false_iff in Hex.
    destruct (commit_block env storage_path service_alias (add_events [EvLock] st))
      as [st1 [[]|e0]] eqn:Hcommit.
    + destruct (AddConfigEntry env storage_path service_alias st1) as [st2 r] eqn:Hentry.
      rewrite (AddService_after_commit env st st1 st2 _ _ r Hin Hex Hname Hcommit Hentry).
      apply commit_block_trace in Hcommit as (evs1 & Ht1 & Hq1 & Hok1).
      apply AddConfigEntry_trace in Hentry as (evs2 & Ht2 & Hq2 & Hok2).
      exists (EvLock :: (evs1 ++ evs2) ++ [EvUnlock])%list. split.
      * simpl. rewrite Ht2, Ht1. simpl. by rewrite <- !app_assoc.
      * right. exists (evs1 ++ evs2)%list. split; [reflexivity |].
        split; [by apply no_mutex_events_app |].
        simpl. intros ->. rewrite (Hok1 eq_refl).
        destruct (Hok2 eq_refl) as (mid & -> & Hmid). by exists mid.
    + rewrite (AddService_commit_failure env st st1 _ _ e0 Hin Hex Hname Hcommit).
      apply commit_block_trace in Hcommit as (evs1 & Ht1 & Hq1 & _).
      exists (EvLock :: evs1 ++ [EvUnlock])%list. split.
      * simpl. rewrite Ht1. simpl. by rewrite <- !app_assoc.
      * right. exists evs1. repeat split; [exact Hq1 | discriminate].
Qed.

(** C8, where the claim fails: a successful [AddService]. The drive attach,
    the write of the credential file and the read and write of the config
    file all lie between the lock and the unlock. *)
Lemma AddService_holds_mutex_across_io :
  trace (fst (AddService toy "/data/photos" "photos" pending_photos))
    = [EvLock;
       EvDrive (DAddService "photos" "/data/photos");
       EvWriteFile "/data/photos/surefile.dat";
       EvReadFile (kConfigFilePath toy);
       EvWriteFile (kConfigFilePath toy);
       EvUnlock]
  /\ io_outside_mutex false
       (trace (fst (AddService toy "/data/photos" "photos" pending_photos))) = false.
Proof. split; reflexivity. Qed.

(** ** The config file: write, then read *)

Lemma getlines_comment (body : string) :
  getlines (kConfigFileComment ++ body) = "# Please do NOT edit." :: getlines body.
Proof. reflexivity. Qed.

Lemma getlines_single (s : string) :
  s <> EmptyString -> has_char newline s = false -> getlines s = [s].
Proof.
  induction s as [|c s IH]; intros Hne Hnl; [contradiction |].
  simpl in Hnl. apply orb_false_elim in Hnl as [Hc Hs].
  simpl. rewrite Hc. destruct s as [|c' s']; [reflexivity |].
  rewrite IH; [reflexivity | discriminate | exact Hs].
Qed.

Lemma has_char_append (c : ascii) (a b : string) :
  has_char c (a ++ b) = has_char c a || has_char c b.
Proof.
  induction a as [|x a IH]; [reflexivity |].
  rewrite append_cons. simpl. rewrite IH. by rewrite orb_assoc.
Qed.

Lemma take_until_stop (c : ascii) (k rest : string) :
  has_char c k = false ->
  take_until c (k ++ String c rest) = (k, String c rest).
Proof.
  induction k as [|x k IH]; intros Hk.
  - rewrite append_empty_l. simpl. by rewrite Ascii.eqb_refl.
  - simpl in Hk. apply orb_false_elim in Hk as [Hx Hk].
    rewrite append_cons. simpl. rewrite Hx. by rewrite IH.
Qed.

Lemma plain_key_inv (k : string) :
  plain_key k = true ->
  k <> EmptyString /\ has_char ">" k = false /\ has_char newline k = false.
Proof.
  unfold plain_key. intros H.
  apply andb_prop in H as [H Hnl]. apply andb_prop in H as [Hne Hgt].
  apply negb_true_iff in Hnl, Hgt, Hne. repeat split; try assumption.
  intros ->. discriminate.
Qed.

Lemma plain_value_inv (v : string) :
  plain_value v = true ->
  v <> EmptyString /\ has_char ":" v = false /\ has_char newline v = false.
Proof.
  unfold plain_value. intros H.
  apply andb_prop in H as [H Hnl]. apply andb_prop in H as [Hne Hgt].
  apply negb_true_iff in Hnl, Hgt, Hne. repeat split; try assumption.
  intros ->. discriminate.
Qed.

Lemma parse_pair_entry (k v rest : string) :
  plain_key k = true -> plain_value v = true ->
  parse_pair (k ++ ">" ++ v ++ ":" ++ rest) = Some (k, v, rest).
Proof.
  intros Hk Hv.
  apply plain_key_inv in Hk as (Hk0 & Hk1 & _).
  apply plain_value_inv in Hv as (Hv0 & Hv1 & _).
  unfold parse_pair.
  change (">" ++ v ++ ":" ++ rest) with (String ">" (v ++ ":" ++ rest)).
  rewrite (take_until_stop ">" k _ Hk1).
  destruct k as [|k0 k']; [contradiction |].
  change (":" ++ rest) with (String ":" rest).
  rewrite (take_until_stop ":" v _ Hv1).
  by destruct v as [|v0 v']; [contradiction |].
Qed.

Lemma Map_insert_last (k v : string) (acc : Map) :
  Forall (fun a => key_lt a (k, v)) acc ->
  Map_insert k v acc = ((acc ++ [(k, v)])%list, true).
Proof.
  induction 1 as [|[k' v'] acc Hlt _ IH]; [reflexivity |].
  unfold key_lt in Hlt. simpl in Hlt. simpl.
  rewrite String.compare_antisym, Hlt. simpl. by rewrite IH.
Qed.

Lemma insert_sorted_entries (l : Map) : forall acc : Map,
  Map_ok l ->
  (forall a x, In a acc -> In x l -> key_lt a x) ->
  fold_left (fun m kv => fst (Map_insert (fst kv) (snd kv) m)) l acc = (acc ++ l)%list.
Proof.
  induction l as [|[k v] l IH]; intros acc Hok Hacc.
  - simpl. by rewrite app_nil_r.
  - apply StronglySorted_inv in Hok as [Hok Hhead].
    simpl. rewrite Map_insert_last.
    + simpl. rewrite IH; [by rewrite <- app_assoc | exact Hok |].
      intros a x Ha Hx. apply in_app_or in Ha as [Ha | [<- | []]].
      * apply Hacc; [exact Ha | by right].
      * rewrite Forall_forall in Hhead. apply Hhead. by apply list_elem_of_In.
    + apply Forall_forall. intros a Ha. apply Hacc; [by apply list_elem_of_In | by left].
Qed.

Lemma parse_pairs_rendered (l : Map) : forall (fuel : nat) (acc : Map),
  Forall (fun kv => plain_entry kv = true) l ->
  length l <= fuel ->
  parse_pairs fuel (karma_format l) acc
    = (EmptyString, fold_left (fun m kv => fst (Map_insert (fst kv) (snd kv) m)) l acc).
Proof.
  induction l as [|[k v] l IH]; intros fuel acc Hplain Hfuel.
  - by destruct fuel.
  - destruct fuel as [|fuel]; [simpl in Hfuel; lia |].
    apply Forall_cons in Hplain as [Hkv Hplain].
    unfold plain_entry in Hkv. simpl in Hkv. apply andb_prop in Hkv as [Hk Hv].
    cbn [karma_format parse_pairs]. rewrite (parse_pair_entry k v _ Hk Hv).
    rewrite IH; [reflexivity | exact Hplain | simpl in Hfuel; lia].
Qed.

Lemma karma_format_length (l : Map) : length l <= String.length (karma_format l).
Proof.
  induction l as [|[k v] l IH]; [reflexivity |].
  cbn [karma_format]. rewrite !append_length. simpl. lia.
Qed.

Lemma karma_format_no_newline (l : Map) :
  Forall (fun kv => plain_entry kv = true) l ->
  has_char newline (karma_format l) = false.
Proof.
  induction 1 as [|[k v] l Hkv _ IH]; [reflexivity |].
  unfold plain_entry in Hkv. simpl in Hkv. apply andb_prop in Hkv as [Hk Hv].
  apply plain_key_inv in Hk as (_ & _ & Hk). apply plain_value_inv in Hv as (_ & _ & Hv).
  cbn [karma_format]. rewrite !has_char_append, Hk, Hv, IH. reflexivity.
Qed.

Lemma grammer_spec_rendered (l : Map) :
  Map_ok l -> Forall (fun kv => plain_entry kv = true) l ->
  grammer_spec (karma_format l) = (true, EmptyString, l).
Proof.
  intros Hok Hplain. unfold grammer_spec.
  rewrite (parse_pairs_rendered l _ [] Hplain (karma_format_length l)).
  rewrite (insert_sorted_entries l [] Hok); [reflexivity |].
  intros a x [].
Qed.

(** The writer does not escape: two different maps can give the same line,
    so no grammar, whatever it is, reads both back. *)
Lemma karma_format_not_injective :
  karma_format one_service = karma_format two_services /\ one_service <> two_services.
Proof. split; [reflexivity | discriminate]. Qed.

(** C3 (as the code has it), with the grammar as the spec gives it: for a
    non-empty map whose storage paths are not empty and hold neither '>' nor a
    newline, and whose aliases are not empty and hold neither ':' nor a
    newline, a successful write followed by a read gives the map back, and
    the [configuration_error] slot is not called. The populated file is not
    encrypted, so the password plays no part. *)
Theorem config_file_round_trip (env : Collaborators) (st : State) (service_pairs : Map) :
  grammer_parse env = grammer_spec ->
  fs_writable env (kConfigFilePath env) = true ->
  service_pairs <> [] ->
  Map_ok service_pairs ->
  Forall (fun kv => plain_entry kv = true) service_pairs ->
  exists st1,
    WriteConfigFile env service_pairs st = (st1, Ok tt)
    /\ ReadConfigFile env st1
       = (add_events [EvReadFile (kConfigFilePath env)] st1, Ok service_pairs).
Proof.
  intros Hgrammar Hwritable Hne Hok Hplain.
  destruct service_pairs as [|entry rest] eqn:Hsp; [contradiction |]. rewrite <- Hsp in *.
  eexists. split.
  - unfold WriteConfigFile, WriteFile. rewrite Hsp at 1. open_monad.
    rewrite Hwritable. reduce_state. reflexivity.
  - unfold ReadConfigFile. open_monad. rewrite lookup_insert_eq. cbn [from_option id].
    rewrite getlines_comment.
    assert (Hline : karma_format service_pairs <> EmptyString).
    { pose proof Hplain as Hp. rewrite Hsp in Hp |- *.
      destruct entry as [k v]. cbn [karma_format].
      apply Forall_cons in Hp as [Hkv _].
      unfold plain_entry in Hkv. simpl in Hkv. apply andb_prop in Hkv as [Hk _].
      apply plain_key_inv in Hk as (Hk & _). by destruct k. }
    rewrite (getlines_single _ Hline (karma_format_no_newline _ Hplain)).
    rewrite Hgrammar, (grammer_spec_rendered _ Hok Hplain).
    reduce_state. reflexivity.
Qed.

Lemma config_file_round_trip_witness :
  exists st1,
    WriteConfigFile toy two_services session_state = (st1, Ok tt)
    /\ ReadConfigFile toy st1
       = (add_events [EvReadFile (kConfigFilePath toy)] st1, Ok two_services).
Proof.
  apply (config_file_round_trip toy session_state two_services).
  - reflexivity.
  - reflexivity.
  - discriminate.
  - repeat constructor.
  - repeat constructor.
Defined.

(** C3, where the claim fails: an alias that holds ':' and '>'. The file
    written for the one service reads back as two services. *)
Lemma delimiters_in_alias_break_round_trip :
  Map_ok one_service
  /\ snd (WriteConfigFile toy one_service session_state) = Ok tt
  /\ snd (ReadConfigFile toy (fst (WriteConfigFile toy one_service session_state)))
     = Ok two_services
  /\ two_services <> one_service.
Proof.
  split; [repeat constructor |].
  split; [reflexivity |]. split; [reflexivity | discriminate].
Qed.

(** The same for any grammar: the two maps are written as the same file, so
    whatever [ReadConfigFile] returns, it is wrong for one of them. *)
Lemma no_grammar_reads_both_back (env : Collaborators) (st : State) :
  ~ (snd (ReadConfigFile env (fst (WriteConfigFile env one_service st))) = Ok one_service
     /\ snd (ReadConfigFile env (fst (WriteConfigFile env two_services st)))
        = Ok two_services).
Proof.
  assert (Hsame : WriteConfigFile env one_service st = WriteConfigFile env two_services st)
    by reflexivity.
  rewrite Hsame. intros [H1 H2]. rewrite H1 in H2. discriminate.
Qed.

(** ** [Login] over a populated mapping *)

Lemma bind_Ok {A B : Type} (m : M A) (f : A -> M B) (st st1 : State) (a : A) :
  m st = (st1, Ok a) -> bind m f st = f a st1.
Proof. intros H. unfold bind. by rewrite H. Qed.

Lemma bind_get {B : Type} (f : State -> M B) (st : State) : bind get f st = f st st.
Proof. reflexivity. Qed.


Lemma drive_calls_app (a b : list event) :
  drive_calls (a ++ b) = (drive_calls a ++ drive_calls b)%list.
Proof. unfold drive_calls. apply flat_map_app. Qed.


(** [ReadConfigFile] reads the disk only, and makes no drive call. *)
Lemma ReadConfigFile_frame (env : Collaborators) (st st2 : State) (m : Map) :
  snd (ReadConfigFile env st) = Ok m ->
  disk st2 = disk st ->
  exists evs, ReadConfigFile env st2 = (add_events evs st2, Ok m)
    /\ drive_calls evs = [].
Proof.
  intros Hm Hdisk. revert Hm.
  unfold ReadConfigFile. open_monad. rewrite Hdisk.
  destruct (getlines _) as [|line0 [|line1 more]];
    try (intros [= <-]; by eexists).
  destruct (grammer_parse env line1) as [[result rest] m'].
  destruct (negb result || negb (String.eqb rest "")); open_monad; intros [= <-].
  - exists [EvReadFile (kConfigFilePath env); EvConfigurationError].
    split; [| reflexivity]. by rewrite add_events_twice.
  - by eexists.
Qed.







(** ** The scenarios of the specification, run on the model *)

Example getlines_keeps_empty_lines :
  getlines ("ab" ++ String newline (String newline "cd")) = ["ab"; ""; "cd"]
  /\ getlines ("ab" ++ String newline EmptyString) = ["ab"]
  /\ getlines EmptyString = [].
Proof. repeat split. Qed.

Example grammer_spec_reads_entries :
  grammer_spec "/b>two:/a>one:" = (true, "", [("/a", "one"); ("/b", "two")])
  /\ grammer_spec "/a>one:/a>again:" = (true, "", [("/a", "one")])
  /\ grammer_spec "/a>one" = (true, "/a>one", []).
Proof. repeat split. Qed.

(** "password Abc123! inserted, finalized, confirmed equal, CreateUser:
    logged_in becomes true, config file contains only the sentinel line
    decryptable by Abc123!". *)
Example CreateUser_scenario :
  snd (CreateUser toy signing_up) = Ok tt
  /\ logged_in_ (fst (CreateUser toy signing_up)) = true
  /\ confirmation_password_ (fst (CreateUser toy signing_up)) = None
  /\ disk (fst (CreateUser toy signing_up)) !! kConfigFilePath toy = Some sentinel_content
  /\ snd (CheckConfigFileContent toy sentinel_content (fst (CreateUser toy signing_up)))
     = Ok tt.
Proof. repeat split. Qed.

(** "AddService(/data/photos, photos) after OnServiceAdded(photos, rootA,
    rootB) was delivered: credential file written under /data/photos, mapping
    now contains /data/photos -> photos, pending table empty". *)
Example AddService_scenario :
  let st := fst (AddService toy "/data/photos" "photos"
                   (fst (OnServiceAdded "photos" rootA rootB session_state))) in
  snd (GetIds toy "/data/photos" st) = Ok (rootA, rootB)
  /\ snd (ReadConfigFile toy st) = Ok [("/data/photos", "photos")]
  /\ pending_service_additions_ st = ∅.
Proof. repeat split. Qed.

(** "Login() with wrong password on a populated config: GetIds decryption
    fails before any drive mount occurs; logged_in remains false". *)
Example Login_wrong_password_scenario :
  let run := Login toy (returning_user wrong_password disk_with_two_services) in
  snd run = Throw (foreign_exception "symmetric_decryption_error")
  /\ drive_calls (trace (fst run)) = []
  /\ logged_in_ (fst run) = false.
Proof. repeat split. Qed.

(** X15: "AddServiceFailed removes exactly the matching pending entry and
    leaves others untouched." *)
Lemma AddServiceFailed_erases_one_entry (env : Collaborators) (st : State)
    (service_alias other : string) (ids : Identity * Identity) :
  logged_in_ st = true ->
  pending_service_additions_ st !! service_alias = Some ids ->
  other <> service_alias ->
  let st' := fst (AddServiceFailed env service_alias st) in
  pending_service_additions_ st' !! service_alias = None
  /\ pending_service_additions_ st' !! other = pending_service_additions_ st !! other
  /\ drive_calls (trace st')
     = (drive_calls (trace st) ++ [DRemoveService service_alias])%list.
Proof.
  intros Hin Hsome Hother. unfold AddServiceFailed, call_drive. open_monad.
  rewrite Hin. reduce_state. rewrite Hsome. reduce_state.
  split; [apply lookup_delete_eq |]. split; [by apply lookup_delete_ne |].
  rewrite !drive_calls_app. simpl. by rewrite !app_nil_r.
Qed.

(** * The rest of surefile.cc *)

(** ** [GetMountPath] *)

Lemma land_pow2_is_zero (d c : Z) :
  (0 <= c)%Z -> Z.eqb (Z.land d (2 ^ c)) 0 = negb (Z.testbit d c).
Proof.
  intros Hc. destruct (Z.testbit d c) eqn:Hbit; simpl.
  - apply Z.eqb_neq. intros Hzero.
    assert (Hb : Z.testbit (Z.land d (2 ^ c)) c = true).
    { rewrite Z.land_spec, Hbit, Z.pow2_bits_true; [reflexivity | exact Hc]. }
    rewrite Hzero, Z.bits_0 in Hb. discriminate.
  - apply Z.eqb_eq. apply Z.bits_inj'. intros n Hn.
    rewrite Z.land_spec, Z.bits_0, Z.pow2_bits_eqb by exact Hc.
    destruct (Z.eqb_spec c n) as [<- | Hne]; [by rewrite Hbit | by rewrite andb_false_r].
Qed.

Lemma uint32_shift_pow2 (c : Z) :
  (0 <= c)%Z -> uint32 (Z.shiftl (2 ^ c) 1) = uint32 (2 ^ (c + 1)).
Proof.
  intros Hc. rewrite Z.shiftl_mul_pow2 by lia. rewrite Z.pow_add_r by lia. reflexivity.
Qed.

Lemma GetMountPath_loop_spec (d : Z) : forall (fuel : nat) (c : Z),
  (2 <= c <= 32)%Z -> (32 - c < Z.of_nat fuel)%Z ->
  exists c', GetMountPath_loop fuel d (uint32 (2 ^ c)) c = Some c'
    /\ (c <= c' <= 32)%Z
    /\ (c' < 32 -> Z.testbit d c' = false)%Z
    /\ (forall i, c <= i < c' -> Z.testbit d i = true)%Z.
Proof.
  induction fuel as [|fuel IH]; intros c Hc Hfuel; [lia |].
  cbn [GetMountPath_loop].
  destruct (Z.eq_dec c 32%Z) as [-> | Hlt].
  - exists 32%Z. change (uint32 (2 ^ 32)) with 0%Z. rewrite Z.land_0_r. simpl.
    repeat split; lia.
  - assert (Hmask : uint32 (2 ^ c) = (2 ^ c)%Z).
    { unfold uint32. apply Z.mod_small.
      split; [apply Z.pow_nonneg; lia | apply Z.pow_lt_mono_r; lia]. }
    rewrite Hmask. rewrite land_pow2_is_zero by lia.
    destruct (Z.testbit d c) eqn:Hbit; simpl.
    + rewrite uint32_shift_pow2 by lia.
      assert (Hcount : uint32 (c + 1) = (c + 1)%Z) by (unfold uint32; apply Z.mod_small; lia).
      rewrite Hcount.
      destruct (IH (c + 1)%Z ltac:(lia) ltac:(lia)) as (c' & Hrun & Hrange & Hfree & Hused).
      exists c'. split; [exact Hrun |]. split; [lia |]. split; [exact Hfree |].
      intros i Hi. destruct (Z.eq_dec i c) as [-> | Hne]; [exact Hbit | apply Hused; lia].
    + exists c. repeat split; try lia. intros _. exact Hbit.
Qed.

(** X1: [GetMountPath] gives the lowest drive letter from C on whose bit in
    the mask of drives in use is clear, as the letter and a colon; it throws
    [uninitialised] exactly when the bits of C to Z are all set, also when
    the bits above Z are set and the mask has been shifted out of its 32
    bits. The loop always ends within its fuel. *)
Theorem GetMountPath_lowest_free_letter (drive_letters : Z) :
  match GetMountPath drive_letters with
  | Ok mount_path =>
      exists count : Z,
        (2 <= count <= 25)%Z
        /\ mount_path = String (Ascii.ascii_of_nat (65 + Z.to_nat count)) ":"
        /\ Z.testbit drive_letters count = false
        /\ (forall i, 2 <= i < count -> Z.testbit drive_letters i = true)%Z
  | Throw e =>
      e = CommonErrors_uninitialised
      /\ (forall i, 2 <= i <= 25 -> Z.testbit drive_letters i = true)%Z
  end.
Proof.
  unfold GetMountPath.
  destruct (GetMountPath_loop_spec drive_letters 32 2%Z ltac:(lia) ltac:(lia))
    as (c & Hrun & Hrange & Hfree & Hused).
  change (uint32 (2 ^ 2)) with 4%Z in Hrun. rewrite Hrun.
  destruct (Z.ltb_spec 25 c) as [Hfull | Hletter].
  - split; [reflexivity |]. intros i Hi. apply Hused. lia.
  - exists c. split; [lia |]. split; [reflexivity |].
    split; [apply Hfree; lia | exact Hused].
Qed.

Example GetMountPath_examples :
  GetMountPath 13 = Ok "E:"
  /\ GetMountPath 0 = Ok "C:"
  /\ GetMountPath (2 ^ 26 - 1) = Throw CommonErrors_uninitialised
  /\ GetMountPath (2 ^ 32 - 1) = Throw CommonErrors_uninitialised
  /\ GetMountPath (2 ^ 25 - 1) = Ok "Z:".
Proof. repeat split. Qed.

(** ** Password buffers and [CreateUser] *)

Lemma bind_Throw {A B : Type} (m : M A) (f : A -> M B) (st st1 : State) (e : error) :
  m st = (st1, Throw e) -> bind m f st = (st1, Throw e).
Proof. intros H. unfold bind. by rewrite H. Qed.

Lemma Password_string_Finalise (p : Password) :
  Password_string (Password_Finalise p) = Password_string p.
Proof. reflexivity. Qed.

(** X2: [FinaliseInput] fails exactly when a buffer it needs is missing (the
    password: [invalid_password]; for [CreateUser], the confirmation:
    [password_confirmation_failed]), and a failure leaves no buffer behind.
    When it succeeds, the buffers it needs are finalised with their text as
    it was. Nothing but the two buffers changes. *)
Theorem FinaliseInput_outcome (login : bool) (st : State) :
  let st' := fst (FinaliseInput login st) in
  match snd (FinaliseInput login st) with
  | Ok _ =>
      (exists p, password_ st = Some p /\ password_ st' = Some (Password_Finalise p))
      /\ (if login then confirmation_password_ st' = confirmation_password_ st
          else exists c, confirmation_password_ st = Some c
                 /\ confirmation_password_ st' = Some (Password_Finalise c))
  | Throw e =>
      password_ st' = None /\ confirmation_password_ st' = None
      /\ ((password_ st = None /\ e = SureFileErrors_invalid_password)
          \/ (password_ st <> None /\ login = false
              /\ confirmation_password_ st = None
              /\ e = SureFileErrors_password_confirmation_failed))
  end
  /\ set_confirmation_password (confirmation_password_ st) (set_password (password_ st) st')
     = st.
Proof.
  unfold FinaliseInput, ResetPassword, ResetConfirmationPassword. open_monad.
  destruct st as [li pw cp dr pend dk dw tr]. simpl.
  destruct pw as [p|]; simpl.
  - destruct login; simpl.
    + split; [| reflexivity]. split; [by exists p | reflexivity].
    + destruct cp as [c|]; simpl.
      * split; [| reflexivity]. split; [by exists p | by exists c].
      * split; [| reflexivity]. repeat split. right. by repeat split.
  - destruct cp as [c|]; simpl; (split; [| reflexivity]); repeat split; by left.
Qed.

(** X3: while logged out, [CreateUser] with a missing buffer, a password that
    fails the character check, or a confirmation that differs, throws
    ([invalid_password] for a missing or invalid password,
    [password_confirmation_failed] for a missing or different confirmation)
    after discarding both buffers, and does nothing else: no file is read,
    no identity drawn, nothing mounted. *)
Theorem CreateUser_rejected_input (env : Collaborators) (st : State) (e : error) :
  logged_in_ st = false ->
  input_error env st = Some e ->
  CreateUser env st = (set_confirmation_password None (set_password None st), Throw e).
Proof.
  intros Hout. unfold input_error.
  destruct st as [li pw cp dr pend dk dw tr]. simpl in Hout. subst li.
  unfold CreateUser, FinaliseInput, ConfirmInput, ResetPassword, ResetConfirmationPassword.
  open_monad.
  destruct pw as [p|]; simpl.
  - destruct cp as [c|]; simpl; [| by intros [= <-]].
    rewrite !Password_string_Finalise.
    destruct (kCharRegex_valid env (Password_string p)); simpl; [| by intros [= <-]].
    destruct (String.eqb (Password_string p) (Password_string c)); simpl;
      [discriminate | by intros [= <-]].
  - destruct cp as [c|]; by intros [= <-].
Qed.

Lemma CreateUser_rejected_input_witness :
  CreateUser toy
    (set_confirmation_password (Some {| chars := "Abc124!"; finalised := false |}) signing_up)
  = (fresh_state, Throw SureFileErrors_password_confirmation_failed).
Proof.
  exact (CreateUser_rejected_input toy
           (set_confirmation_password (Some {| chars := "Abc124!"; finalised := false |})
              signing_up) SureFileErrors_password_confirmation_failed eq_refl eq_refl).
Defined.


Lemma CanCreateUser_existing_file (env : Collaborators) (st : State) :
  is_Some (disk st !! kConfigFilePath env) -> CanCreateUser env st = false.
Proof.
  intros [content Hfile]. unfold CanCreateUser, fs_exists. rewrite Hfile.
  by destruct (logged_in_ st).
Qed.

(** X4: while logged out, with input that passes the checks, [CreateUser]
    over a config file that holds anything throws [invalid_parameter] after
    reading the file: nothing is mounted, no identity drawn, no file written.
    The confirmation is discarded; the password stays in memory, finalised.
    [CanCreateUser] is false in such a state. *)
Theorem CreateUser_existing_config (env : Collaborators) (st : State) (p : Password)
    (content : string) :
  logged_in_ st = false ->
  password_ st = Some p ->
  input_error env st = None ->
  disk st !! kConfigFilePath env = Some content ->
  content <> EmptyString ->
  CreateUser env st
    = (add_events [EvReadFile (kConfigFilePath env)]
         (set_confirmation_password None
            (set_password (Some (Password_Finalise p)) st)),
       Throw CommonErrors_invalid_parameter)
  /\ CanCreateUser env st = false.
Proof.
  intros Hout Hpw Hinput Hfile Hcontent.
  split; [| apply CanCreateUser_existing_file; by eexists].
  revert Hinput. unfold input_error. rewrite Hpw.
  destruct st as [li pw cp dr pend dk dw tr]. simpl in Hout, Hpw, Hfile. subst li pw.
  unfold CreateUser, FinaliseInput, ConfirmInput, ResetPassword, ResetConfirmationPassword,
    ReadFile_into.
  open_monad.
  destruct cp as [c|]; simpl; [| discriminate].
  rewrite !Password_string_Finalise.
  destruct (kCharRegex_valid env (Password_string p)); simpl; [| discriminate].
  destruct (String.eqb (Password_string p) (Password_string c)); simpl; [| discriminate].
  intros _. rewrite Hfile. simpl.
  destruct (String.eqb_spec content ""); [contradiction | reflexivity].
Qed.

Lemma CreateUser_existing_config_witness :
  CreateUser toy (set_disk {[ kConfigFilePath toy := sentinel_content ]} signing_up)
    = (add_events [EvReadFile (kConfigFilePath toy)]
         (set_confirmation_password None
            (set_password (Some the_password)
               (set_disk {[ kConfigFilePath toy := sentinel_content ]} signing_up))),
       Throw CommonErrors_invalid_parameter)
  /\ CanCreateUser toy (set_disk {[ kConfigFilePath toy := sentinel_content ]} signing_up)
     = false.
Proof.
  apply (CreateUser_existing_config toy
           (set_disk {[ kConfigFilePath toy := sentinel_content ]} signing_up)
           {| chars := "Abc123!"; finalised := false |} sentinel_content);
    try reflexivity.
  discriminate.
Defined.



(** ** [ReadConfigFile] on files without a mapping line *)

Lemma append_assoc (a b c : string) : (a ++ b) ++ c = a ++ b ++ c.
Proof.
  induction a as [|x a IH]; [reflexivity |].
  rewrite !append_cons. by rewrite IH.
Qed.

Lemma getlines_cut (x rest : string) :
  has_char newline x = false ->
  getlines (x ++ String newline rest) = x :: getlines rest.
Proof.
  induction x as [|c x IH]; intros Hx.
  - rewrite append_empty_l. reflexivity.
  - simpl in Hx. apply orb_false_elim in Hx as [Hc Hx].
    rewrite append_cons. simpl. rewrite Hc. by rewrite IH.
Qed.

Lemma getlines_short (line : string) :
  has_char newline line = false ->
  length (getlines line) < 2 /\ length (getlines (line ++ String newline EmptyString)) < 2.
Proof.
  intros Hline. split.
  - destruct line as [|c line]; [simpl; lia |].
    rewrite getlines_single; [simpl; lia | discriminate | exact Hline].
  - rewrite getlines_cut by exact Hline. simpl. lia.
Qed.

Lemma ReadConfigFile_few_lines (env : Collaborators) (st : State) :
  length (getlines (default "" (disk st !! kConfigFilePath env))) < 2 ->
  ReadConfigFile env st = (add_events [EvReadFile (kConfigFilePath env)] st, Ok []).
Proof.
  intros Hlines. unfold ReadConfigFile. open_monad.
  destruct (getlines _) as [|line0 [|line1 more]]; try reflexivity.
  simpl in Hlines. lia.
Qed.

(** X6: when the config file is absent, or holds a single line (with or
    without its final newline), [ReadConfigFile] returns the empty mapping
    without consulting the grammar and without calling [configuration_error].
    The sentinel is such a file when its cipher text holds no newline. *)
Theorem ReadConfigFile_without_mapping_line (env : Collaborators) (st : State) :
  disk st !! kConfigFilePath env = None
  \/ (exists line, has_char newline line = false
        /\ (disk st !! kConfigFilePath env = Some line
            \/ disk st !! kConfigFilePath env
               = Some (line ++ String newline EmptyString))) ->
  ReadConfigFile env st = (add_events [EvReadFile (kConfigFilePath env)] st, Ok []).
Proof.
  intros Hfile. apply ReadConfigFile_few_lines.
  destruct Hfile as [-> | (line & Hline & [-> | ->])]; simpl.
  - lia.
  - by apply getlines_short.
  - by apply getlines_short.
Qed.

Lemma ReadConfigFile_without_mapping_line_witness :
  ReadConfigFile toy (returning_user the_password {[ kConfigFilePath toy := kConfigFileComment ]})
  = (add_events [EvReadFile (kConfigFilePath toy)]
       (returning_user the_password {[ kConfigFilePath toy := kConfigFileComment ]}),
     Ok []).
Proof.
  apply (ReadConfigFile_without_mapping_line toy
           (returning_user the_password {[ kConfigFilePath toy := kConfigFileComment ]})).
  right. exists "# Please do NOT edit.". split; [reflexivity |]. right. reflexivity.
Defined.

(** X7: [ReadConfigFile] does not tell the sentinel from a populated file.
    When the cipher text of the sentinel holds a newline, the bytes between
    it and the next newline are what the grammar is given as the mapping
    line, and what the grammar makes of them is returned as the mapping. *)
Theorem ReadConfigFile_sentinel_with_newline (env : Collaborators) (st : State)
    (before after : string) :
  has_char newline before = false ->
  has_char newline after = false ->
  disk st !! kConfigFilePath env
    = Some ("#" ++ (before ++ String newline after) ++ String newline EmptyString) ->
  ReadConfigFile env st
  = (let '(result, rest, service_pairs) := grammer_parse env after in
     (add_events
        (EvReadFile (kConfigFilePath env)
         :: (if negb result || negb (String.eqb rest "") then [EvConfigurationError]
             else []))
        st,
      Ok service_pairs)).
Proof.
  intros Hbefore Hafter Hfile. unfold ReadConfigFile. open_monad.
  rewrite Hfile. cbn [from_option id].
  assert (Hlines : getlines ("#" ++ (before ++ String newline after)
                               ++ String newline EmptyString)
                   = ["#" ++ before; after]).
  { rewrite append_cons, append_empty_l, append_assoc, (append_cons newline after).
    rewrite <- (append_cons "#" before).
    rewrite getlines_cut by exact Hbefore.
    by rewrite getlines_cut. }
  rewrite Hlines.
  destruct (grammer_parse env after) as [[result rest] m].
  destruct (negb result || negb (String.eqb rest "")); open_monad; [| reflexivity].
  by rewrite add_events_twice.
Qed.

Lemma ReadConfigFile_sentinel_with_newline_witness :
  ReadConfigFile toy
    (returning_user the_password
       {[ kConfigFilePath toy
          := "#" ++ ("ab" ++ String newline "/data/x>one:") ++ String newline EmptyString ]})
  = (add_events [EvReadFile (kConfigFilePath toy)]
       (returning_user the_password
          {[ kConfigFilePath toy
             := "#" ++ ("ab" ++ String newline "/data/x>one:")
                    ++ String newline EmptyString ]}),
     Ok [("/data/x", "one")]).
Proof.
  apply (ReadConfigFile_sentinel_with_newline toy
           (returning_user the_password
              {[ kConfigFilePath toy
                 := "#" ++ ("ab" ++ String newline "/data/x>one:")
                        ++ String newline EmptyString ]})
           "ab" "/data/x>one:");
    reflexivity.
Defined.

(** ** [Login] with no service yet, and [Login] that fails *)

Lemma FinaliseInput_login (st : State) (p : Password) :
  password_ st = Some p ->
  FinaliseInput true st = (set_password (Some (Password_Finalise p)) st, Ok tt).
Proof. intros Hpw. unfold FinaliseInput. open_monad. by rewrite Hpw. Qed.

(** [Login] up to the mapping it read: the password is finalised, the
    config file read, and no drive call made. *)
Lemma Login_reads_mapping (env : Collaborators) (st : State) (p : Password) (m : Map)
    (body : Map -> M unit) :
  password_ st = Some p ->
  confirmation_password_ st = None ->
  snd (ReadConfigFile env st) = Ok m ->
  exists evs,
    drive_calls evs = []
    /\ (do! FinaliseInput true in
        let! st1 := get in
        match confirmation_password_ st1 with
        | Some _ => throw (foreign_exception "assert")
        | None => let! service_pairs := ReadConfigFile env in body service_pairs
        end) st
       = body m (add_events evs (set_password (Some (Password_Finalise p)) st)).
Proof.
  intros Hpw Hconf Hmap.
  destruct (ReadConfigFile_frame env st (set_password (Some (Password_Finalise p)) st)
              m Hmap eq_refl) as (evs & Hread & Hquiet).
  exists evs. split; [exact Hquiet |].
  rewrite (bind_Ok _ _ _ _ _ (FinaliseInput_login st p Hpw)), bind_get.
  change (confirmation_password_ (set_password (Some (Password_Finalise p)) st))
    with (confirmation_password_ st).
  rewrite Hconf. by rewrite (bind_Ok _ _ _ _ _ Hread).
Qed.

Lemma CheckConfigFileContent_run (env : Collaborators) (st : State) (p : Password)
    (key iv content cipher_text : string) :
  password_ st = Some p ->
  SecureKey env (Hash_SHA512 env (Password_string p)) = Ok key ->
  SecureIv env (Hash_SHA512 env (Password_string p)) = Ok iv ->
  substr content 1 (size_minus_2 (String.length content)) = Ok cipher_text ->
  CheckConfigFileContent env content st
  = match SymmDecrypt env cipher_text key iv with
    | Ok plain_text =>
        if String.eqb plain_text kConfigFileComment then (st, Ok tt)
        else (set_password None st, Throw SureFileErrors_invalid_password)
    | Throw e => (st, Throw e)
    end.
Proof.
  intros Hpw Hkey Hiv Hsub.
  unfold CheckConfigFileContent, ResetPassword. open_monad.
  rewrite (session_keys_of_password env st p key iv Hpw Hkey Hiv). reduce_state.
  rewrite Hsub. reduce_state.
  destruct (SymmDecrypt env cipher_text key iv) as [plain|e]; [| reflexivity].
  by destruct (String.eqb plain kConfigFileComment).
Qed.

Lemma ReadFile_content (env : Collaborators) (st : State) (path content : string) :
  disk st !! path = Some content -> content <> EmptyString ->
  ReadFile path st = (add_events [EvReadFile path] st, Ok content).
Proof.
  intros Hfile Hcontent. unfold ReadFile. rewrite Hfile.
  by destruct (String.eqb_spec content "").
Qed.



(** X9: a [Login] while logged out over the empty mapping whose sentinel
    does not decrypt to the comment fails before anything is mounted: no
    drive call is made, no identity drawn, and [logged_in_] stays false.
    When the cipher gives another plain text the error is [invalid_password]
    and the password buffer is discarded; when the cipher throws, its
    exception is the error and the finalised password stays in memory. *)
Theorem Login_sentinel_mismatch (env : Collaborators) (st : State) (p : Password)
    (key iv content cipher_text : string) :
  logged_in_ st = false ->
  password_ st = Some p ->
  confirmation_password_ st = None ->
  snd (ReadConfigFile env st) = Ok [] ->
  disk st !! kConfigFilePath env = Some content ->
  content <> EmptyString ->
  SecureKey env (Hash_SHA512 env (Password_string p)) = Ok key ->
  SecureIv env (Hash_SHA512 env (Password_string p)) = Ok iv ->
  substr content 1 (size_minus_2 (String.length content)) = Ok cipher_text ->
  SymmDecrypt env cipher_text key iv <> Ok kConfigFileComment ->
  exists st' e,
    Login env st = (st', Throw e)
    /\ logged_in_ st' = false
    /\ drive_ st' = drive_ st
    /\ draws st' = draws st
    /\ drive_calls (trace st') = drive_calls (trace st)
    /\ match SymmDecrypt env cipher_text key iv with
       | Ok _ => e = SureFileErrors_invalid_password /\ password_ st' = None
       | Throw e0 => e = e0 /\ password_ st' = Some (Password_Finalise p)
       end.
Proof.
  intros Hout Hpw Hconf Hmap Hfile Hcontent Hkey Hiv Hsub Hdec.
  destruct (Login_reads_mapping env st p [] 
              (fun service_pairs =>
                 do! match service_pairs with
                     | [] =>
                         let! content := ReadFile (kConfigFilePath env) in
                         do! CheckConfigFileContent env content in
                         let! drive_root_id := random_identity env in
                         MountDrive env drive_root_id
                     | (storage_path, service_alias) :: rest =>
                         let! ids := GetIds env storage_path in
                         do! MountDrive env (fst ids) in
                         do! InitialiseService env storage_path service_alias (snd ids) in
                         Login_loop env rest
                     end in
                 modify (set_logged_in true))
              Hpw Hconf Hmap) as (evs & Hquiet & Hrun).
  unfold Login. rewrite bind_get, Hout. cbv iota. rewrite Hrun. clear Hrun.
  set (st2 := add_events evs (set_password (Some (Password_Finalise p)) st)).
  set (st3 := add_events [EvReadFile (kConfigFilePath env)] st2).
  assert (Hread : ReadFile (kConfigFilePath env) st2 = (st3, Ok content))
    by (by apply ReadFile_content).
  pose proof (CheckConfigFileContent_run env st3 (Password_Finalise p) key iv content
                cipher_text eq_refl Hkey Hiv Hsub) as Hcheck.
  destruct (SymmDecrypt env cipher_text key iv) as [plain|e0] eqn:Hplain.
  - destruct (String.eqb_spec plain kConfigFileComment) as [-> | Hne];
      [by contradiction Hdec |].
    eexists _, _. split.
    + apply bind_Throw. rewrite (bind_Ok _ _ _ _ _ Hread). apply bind_Throw. exact Hcheck.
    + simpl. repeat split; try exact Hout.
      rewrite !drive_calls_app, Hquiet. simpl. by rewrite !app_nil_r.
  - eexists _, _. split.
    + apply bind_Throw. rewrite (bind_Ok _ _ _ _ _ Hread). apply bind_Throw. exact Hcheck.
    + simpl. repeat split; try exact Hout.
      rewrite !drive_calls_app, Hquiet. simpl. by rewrite !app_nil_r.
Qed.

Lemma Login_sentinel_mismatch_witness :
  exists st' e,
    Login toy (returning_user wrong_password {[ kConfigFilePath toy := sentinel_content ]})
      = (st', Throw e)
    /\ logged_in_ st' = false
    /\ drive_ st' = None
    /\ draws st' = 0
    /\ drive_calls (trace st') = []
    /\ e = foreign_exception "symmetric_decryption_error"
    /\ password_ st' = Some wrong_password.
Proof.
  exact (Login_sentinel_mismatch toy
           (returning_user wrong_password {[ kConfigFilePath toy := sentinel_content ]})
           wrong_password
           (substring 0 32 (toy_hash "letmein")) (substring 32 16 (toy_hash "letmein"))
           sentinel_content
           (substring 0 48 (toy_hash "Abc123!") ++ kConfigFileComment)
           eq_refl eq_refl eq_refl eq_refl eq_refl ltac:(discriminate)
           eq_refl eq_refl eq_refl ltac:(discriminate)).
Defined.

(** X10: a [Login] while logged out when there is no config file, or an
    empty one: the mapping reads as empty, and [ReadFile], asked for the
    content to verify, throws. The call has finalised the password and read
    the file twice; the drive is not touched and [logged_in_] stays false. *)
Theorem Login_without_config_file (env : Collaborators) (st : State) (p : Password) :
  logged_in_ st = false ->
  password_ st = Some p ->
  confirmation_password_ st = None ->
  disk st !! kConfigFilePath env = None
  \/ disk st !! kConfigFilePath env = Some EmptyString ->
  exists what,
    Login env st
    = (add_events [EvReadFile (kConfigFilePath env); EvReadFile (kConfigFilePath env)]
         (set_password (Some (Password_Finalise p)) st),
       Throw (foreign_exception what)).
Proof.
  intros Hout Hpw Hconf Hfile.
  unfold Login, FinaliseInput, ReadConfigFile, ReadFile. open_monad.
  rewrite Hout, Hpw. reduce_state. rewrite Hconf. reduce_state.
  destruct Hfile as [Hfile | Hfile]; rewrite Hfile; cbn [from_option id getlines];
    reduce_state; rewrite Hfile; reduce_state; rewrite add_events_twice; by eexists.
Qed.

Lemma Login_without_config_file_witness :
  exists what,
    Login toy (returning_user the_password ∅)
    = (add_events [EvReadFile (kConfigFilePath toy); EvReadFile (kConfigFilePath toy)]
         (returning_user the_password ∅),
       Throw (foreign_exception what)).
Proof.
  apply (Login_without_config_file toy (returning_user the_password ∅) the_password);
    try reflexivity.
  by left.
Defined.

(** What [GetIds] returns depends on the password and the disk alone, and
    it makes no drive call. *)
Lemma GetIds_result_frame (env : Collaborators) (storage_path : string) (st st2 : State) :
  password_ st2 = password_ st ->
  disk st2 = disk st ->
  snd (GetIds env storage_path st2) = snd (GetIds env storage_path st)
  /\ exists evs, fst (GetIds env storage_path st2) = add_events evs st2
       /\ drive_calls evs = [].
Proof.
  intros Hpw Hdisk.
  unfold GetIds, session_keys, SecurePassword, ReadFile. open_monad.
  rewrite Hpw.
  destruct (password_ st); reduce_state;
    [| split; [reflexivity | exists []; by rewrite add_events_nil]].
  destruct (SecureKey env _); reduce_state;
    [| split; [reflexivity | exists []; by rewrite add_events_nil]].
  destruct (SecureIv env _); reduce_state;
    [| split; [reflexivity | exists []; by rewrite add_events_nil]].
  rewrite Hdisk.
  destruct (disk st !! _) as [content|]; reduce_state;
    [| split; [reflexivity | by eexists]].
  destruct (String.eqb content ""); reduce_state; [split; [reflexivity | by eexists] |].
  destruct (SymmDecrypt env _ _ _); reduce_state; split; try reflexivity; by eexists.
Qed.

(** X11: a [Login] while logged out over a populated mapping, when the
    credential file of the first entry cannot be recovered under the
    password ([GetIds] throws, as for a wrong password): the exception of
    [GetIds] is what the caller gets, no drive call has been made, and
    [logged_in_] stays false. *)
Theorem Login_first_credentials_fail (env : Collaborators) (st : State) (p : Password)
    (storage_path service_alias : string) (rest : Map) (e : error) :
  logged_in_ st = false ->
  password_ st = Some p ->
  confirmation_password_ st = None ->
  snd (ReadConfigFile env st) = Ok ((storage_path, service_alias) :: rest) ->
  snd (GetIds env storage_path (set_password (Some (Password_Finalise p)) st)) = Throw e ->
  exists st',
    Login env st = (st', Throw e)
    /\ logged_in_ st' = false
    /\ drive_ st' = drive_ st
    /\ drive_calls (trace st') = drive_calls (trace st).
Proof.
  intros Hout Hpw Hconf Hmap Hids.
  destruct (Login_reads_mapping env st p ((storage_path, service_alias) :: rest)
              (fun service_pairs =>
                 do! match service_pairs with
                     | [] =>
                         let! content := ReadFile (kConfigFilePath env) in
                         do! CheckConfigFileContent env content in
                         let! drive_root_id := random_identity env in
                         MountDrive env drive_root_id
                     | (storage_path, service_alias) :: rest =>
                         let! ids := GetIds env storage_path in
                         do! MountDrive env (fst ids) in
                         do! InitialiseService env storage_path service_alias (snd ids) in
                         Login_loop env rest
                     end in
                 modify (set_logged_in true))
              Hpw Hconf Hmap) as (evs & Hquiet & Hrun).
  unfold Login. rewrite bind_get, Hout. cbv iota. rewrite Hrun. clear Hrun.
  set (st1 := set_password (Some (Password_Finalise p)) st) in *.
  destruct (GetIds_result_frame env storage_path st1 (add_events evs st1) eq_refl eq_refl)
    as (Hsame & evs2 & Hstate & Hquiet2).
  rewrite Hids in Hsame.
  destruct (GetIds env storage_path (add_events evs st1)) as [st2 r] eqn:Hget.
  simpl in Hsame, Hstate. subst st2 r.
  eexists. split.
  - apply bind_Throw. apply bind_Throw. exact Hget.
  - simpl. repeat split; try exact Hout.
    rewrite !drive_calls_app, Hquiet, Hquiet2. simpl. by rewrite !app_nil_r.
Qed.

Lemma Login_first_credentials_fail_witness :
  exists st',
    Login toy (returning_user wrong_password disk_with_two_services)
      = (st', Throw (foreign_exception "symmetric_decryption_error"))
    /\ logged_in_ st' = false
    /\ drive_ st' = None
    /\ drive_calls (trace st') = [].
Proof.
  exact (Login_first_credentials_fail toy
           (returning_user wrong_password disk_with_two_services) wrong_password
           "/data/music" "music" [("/data/photos", "photos")]
           (foreign_exception "symmetric_decryption_error")
           eq_refl eq_refl eq_refl eq_refl eq_refl).
Defined.

(** ** Credential files *)

(** X12: what [PutIds] writes, [GetIds] reads back. Under one password, with
    a cipher that decrypts what it encrypted to a non-empty cipher text and a
    parser that reads back what was serialised, [PutIds] succeeds on a path
    that can be written, [GetIds] on the same storage path then returns the
    two identities, and no other file has changed. *)
Theorem GetIds_after_PutIds (env : Collaborators) (st : State) (p : Password)
    (storage_path key iv serialised cipher : string)
    (drive_root_id service_root_id : Identity) :
  password_ st = Some p ->
  SecureKey env (Hash_SHA512 env (Password_string p)) = Ok key ->
  SecureIv env (Hash_SHA512 env (Password_string p)) = Ok iv ->
  Credentials_Serialise env drive_root_id service_root_id = Ok serialised ->
  SymmEncrypt env serialised key iv = Ok cipher ->
  cipher <> EmptyString ->
  fs_writable env (path_append storage_path kCredentialsFilename) = true ->
  SymmDecrypt env cipher key iv = Ok serialised ->
  Credentials_Parse env serialised = Ok (drive_root_id, service_root_id) ->
  exists st1,
    PutIds env storage_path drive_root_id service_root_id st = (st1, Ok tt)
    /\ snd (GetIds env storage_path st1) = Ok (drive_root_id, service_root_id)
    /\ disk st1 = <[path_append storage_path kCredentialsFilename := cipher]> (disk st).
Proof.
  intros Hpw Hkey Hiv Hser Henc Hcipher Hwritable Hdec Hparse.
  pose proof (session_keys_of_password env st p key iv Hpw Hkey Hiv) as Hkeys.
  set (st1 := add_events [EvWriteFile (path_append storage_path kCredentialsFilename)]
                (set_disk (<[path_append storage_path kCredentialsFilename := cipher]>
                             (disk st)) st)).
  exists st1. split; [| split].
  - unfold PutIds, WriteFile. open_monad. rewrite Hkeys. reduce_state.
    rewrite Hser. reduce_state. rewrite Henc. reduce_state.
    rewrite Hwritable. reflexivity.
  - unfold GetIds, ReadFile. open_monad.
    rewrite (session_keys_of_password env st1 p key iv Hpw Hkey Hiv). reduce_state.
    unfold st1. reduce_state. rewrite lookup_insert_eq.
    destruct (String.eqb_spec cipher ""); [contradiction |]. reduce_state.
    rewrite Hdec. reduce_state. by rewrite Hparse.
  - reflexivity.
Qed.

Lemma GetIds_after_PutIds_witness :
  exists st1,
    PutIds toy "/data/photos" rootA rootB session_state = (st1, Ok tt)
    /\ snd (GetIds toy "/data/photos" st1) = Ok (rootA, rootB)
    /\ disk st1
       = <[path_append "/data/photos" kCredentialsFilename
           := substring 0 48 (toy_hash "Abc123!") ++ rootA ++ "," ++ rootB]>
           (disk session_state).
Proof.
  apply (GetIds_after_PutIds toy session_state the_password "/data/photos"
           (substring 0 32 (toy_hash "Abc123!")) (substring 32 16 (toy_hash "Abc123!"))
           (rootA ++ "," ++ rootB)
           (substring 0 48 (toy_hash "Abc123!") ++ rootA ++ "," ++ rootB)
           rootA rootB);
    try reflexivity.
  discriminate.
Defined.

(** X13: [DeleteIds] on a path the system lets it change never throws,
    whether the credential file is there or not, removes that file and no
    other, and afterwards [GetIds] on the storage path recovers nothing,
    under any password. *)
Theorem DeleteIds_removes_credentials (env : Collaborators) (st : State)
    (storage_path : string) :
  fs_writable env (path_append storage_path kCredentialsFilename) = true ->
  let st' := fst (DeleteIds env storage_path st) in
  snd (DeleteIds env storage_path st) = Ok tt
  /\ disk st' = delete (path_append storage_path kCredentialsFilename) (disk st)
  /\ (forall st2 ids, disk st2 = disk st' -> snd (GetIds env storage_path st2) <> Ok ids).
Proof.
  intros Hwritable.
  assert (Hrun : snd (DeleteIds env storage_path st) = Ok tt
    /\ disk (fst (DeleteIds env storage_path st))
       = delete (path_append storage_path kCredentialsFilename) (disk st)).
  { unfold DeleteIds. open_monad.
    destruct (disk st !! path_append storage_path kCredentialsFilename) eqn:Hfile;
      reduce_state.
    - rewrite Hwritable. by reduce_state.
    - split; [reflexivity |]. symmetry. by apply delete_id. }
  destruct Hrun as [Hok Hdisk]. split; [exact Hok |]. split; [exact Hdisk |].
  intros st2 ids Hst2. rewrite Hdisk in Hst2.
  unfold GetIds, session_keys, SecurePassword, ReadFile. open_monad.
  destruct (password_ st2); reduce_state; [| discriminate].
  destruct (SecureKey env _); reduce_state; [| discriminate].
  destruct (SecureIv env _); reduce_state; [| discriminate].
  rewrite Hst2, lookup_delete_eq. discriminate.
Qed.

Lemma DeleteIds_removes_credentials_witness :
  snd (DeleteIds toy "/data/music" next_start) = Ok tt
  /\ disk (fst (DeleteIds toy "/data/music" next_start))
     = delete (path_append "/data/music" kCredentialsFilename) (disk next_start)
  /\ (forall st2 ids,
        disk st2 = disk (fst (DeleteIds toy "/data/music" next_start)) ->
        snd (GetIds toy "/data/music" st2) <> Ok ids).
Proof. apply (DeleteIds_removes_credentials toy next_start "/data/music"). reflexivity. Defined.

(** ** The pending table *)

(** X14: [OnServiceAdded] for an alias that is not pending records the pair
    under the alias and leaves the other entries alone; [AddServiceFailed]
    for that alias then puts the table back as it was and has the drive
    remove the service, its outcome being the outcome of that drive call. *)
Theorem AddServiceFailed_after_OnServiceAdded (env : Collaborators) (st : State)
    (service_alias : string) (drive_root_id service_root_id : Identity) :
  logged_in_ st = true ->
  pending_service_additions_ st !! service_alias = None ->
  let st1 := fst (OnServiceAdded service_alias drive_root_id service_root_id st) in
  let st2 := fst (AddServiceFailed env service_alias st1) in
  pending_service_additions_ st1
    = <[service_alias := (drive_root_id, service_root_id)]> (pending_service_additions_ st)
  /\ snd (AddServiceFailed env service_alias st1) = drive env (DRemoveService service_alias)
  /\ pending_service_additions_ st2 = pending_service_additions_ st
  /\ drive_calls (trace st2)
     = (drive_calls (trace st) ++ [DRemoveService service_alias])%list.
Proof.
  intros Hin Hnone.
  unfold OnServiceAdded, AddServiceFailed, call_drive. open_monad.
  rewrite Hnone. reduce_state. rewrite Hin. reduce_state.
  rewrite lookup_insert_eq. reduce_state.
  repeat split.
  - by apply delete_insert_id.
  - rewrite !drive_calls_app. simpl. by rewrite !app_nil_r.
Qed.

Lemma AddServiceFailed_after_OnServiceAdded_witness :
  pending_service_additions_ (fst (OnServiceAdded "photos" rootA rootB session_state))
    = <["photos" := (rootA, rootB)]> (pending_service_additions_ session_state)
  /\ snd (AddServiceFailed toy "photos"
            (fst (OnServiceAdded "photos" rootA rootB session_state)))
     = Ok tt
  /\ pending_service_additions_
       (fst (AddServiceFailed toy "photos"
               (fst (OnServiceAdded "photos" rootA rootB session_state))))
     = pending_service_additions_ session_state
  /\ drive_calls
       (trace (fst (AddServiceFailed toy "photos"
                      (fst (OnServiceAdded "photos" rootA rootB session_state)))))
     = [DRemoveService "photos"].
Proof.
  apply (AddServiceFailed_after_OnServiceAdded toy session_state "photos" rootA rootB);
    reflexivity.
Defined.

Lemma AddServiceFailed_erases_one_entry_witness :
  pending_service_additions_ (fst (AddServiceFailed toy "photos" pending_photos))
    !! "photos" = None
  /\ pending_service_additions_ (fst (AddServiceFailed toy "photos" pending_photos))
       !! "music"
     = pending_service_additions_ pending_photos !! "music"
  /\ drive_calls (trace (fst (AddServiceFailed toy "photos" pending_photos)))
     = [DRemoveService "photos"].
Proof.
  apply (AddServiceFailed_erases_one_entry toy pending_photos "photos" "music"
           (rootA, rootB));
    [reflexivity | reflexivity | discriminate].
Defined.

(** X16: [AddServiceFailed] for an alias that is not pending throws
    [invalid_parameter] (it has no [try] block around the lookup), makes no
    drive call and changes nothing; only the mutex was taken and released.
    Logged out, it throws [uninitialised] before taking the mutex. *)
Theorem AddServiceFailed_without_pending_entry (env : Collaborators) (st : State)
    (service_alias : string) :
  pending_service_additions_ st !! service_alias = None ->
  AddServiceFailed env service_alias st
  = if logged_in_ st
    then (add_events [EvLock; EvUnlock] st, Throw CommonErrors_invalid_parameter)
    else (st, Throw CommonErrors_uninitialised).
Proof.
  intros Hnone. unfold AddServiceFailed. open_monad.
  destruct (logged_in_ st); reduce_state; [| reflexivity].
  rewrite Hnone. reduce_state. by rewrite add_events_twice.
Qed.

Lemma AddServiceFailed_without_pending_entry_witness :
  AddServiceFailed toy "photos" session_state
  = (add_events [EvLock; EvUnlock] session_state, Throw CommonErrors_invalid_parameter).
Proof.
  apply (AddServiceFailed_without_pending_entry toy session_state "photos"). reflexivity.
Defined.

(** ** [AddService] that succeeds *)

Lemma Map_find_insert (k v : string) (m : Map) :
  Map_find k m = None ->
  snd (Map_insert k v m) = true
  /\ Map_find k (fst (Map_insert k v m)) = Some v
  /\ forall k', k' <> k -> Map_find k' (fst (Map_insert k v m)) = Map_find k' m.
Proof.
  induction m as [|[k0 v0] m IH]; intros Hnone.
  - simpl. rewrite String.eqb_refl. repeat split. intros k' Hk'.
    by destruct (String.eqb_spec k' k).
  - simpl in Hnone. destruct (String.eqb_spec k k0) as [-> | Hne]; [discriminate |].
    simpl. destruct (String.compare k k0) eqn:Hcmp.
    + apply String.compare_eq_iff in Hcmp. contradiction.
    + simpl. rewrite String.eqb_refl. repeat split. intros k' Hk'.
      by destruct (String.eqb_spec k' k).
    + destruct (IH Hnone) as (Hfresh & Hfound & Hothers).
      destruct (Map_insert k v m) as [r fresh]. simpl in *.
      destruct (String.eqb_spec k k0); [contradiction |].
      repeat split; [exact Hfresh | exact Hfound |].
      intros k' Hk'. destruct (String.eqb k' k0); [reflexivity | by apply Hothers].
Qed.

(** [ReadConfigFile] reads the config file and nothing else. *)
Lemma ReadConfigFile_frame_file (env : Collaborators) (st st2 : State) (m : Map) :
  snd (ReadConfigFile env st) = Ok m ->
  disk st2 !! kConfigFilePath env = disk st !! kConfigFilePath env ->
  exists evs, ReadConfigFile env st2 = (add_events evs st2, Ok m)
    /\ drive_calls evs = [].
Proof.
  intros Hm Hfile. revert Hm.
  unfold ReadConfigFile. open_monad. rewrite Hfile.
  destruct (getlines _) as [|line0 [|line1 more]];
    try (intros [= <-]; by eexists).
  destruct (grammer_parse env line1) as [[result rest] m'].
  destruct (negb result || negb (String.eqb rest "")); open_monad; intros [= <-].
  - exists [EvReadFile (kConfigFilePath env); EvConfigurationError].
    split; [| reflexivity]. by rewrite add_events_twice.
  - by eexists.
Qed.

(** X17: an [AddService] that goes through. Logged in, with a storage path
    and an alias that pass [CheckValid], a pending entry for the alias, a
    drive that attaches the service, credentials that serialise and encrypt,
    files that can be written, and a config file whose mapping does not hold
    the storage path yet: the call succeeds; the drive call made is the one
    [AddService]; the pending entry is erased; the credential file holds the
    cipher text of the pending pair; and the config file is rewritten as the
    comment line and the mapping with the new entry in its place, in which
    the storage path now maps to the alias. *)
Theorem AddService_commits (env : Collaborators) (st : State) (p : Password)
    (storage_path service_alias key iv serialised cipher : string)
    (ids : Identity * Identity) (service_pairs : Map) :
  logged_in_ st = true ->
  fs_exists env storage_path st = true ->
  ExcludedFilename env service_alias = false ->
  pending_service_additions_ st !! service_alias = Some ids ->
  drive env (DAddService service_alias storage_path) = Ok tt ->
  password_ st = Some p ->
  SecureKey env (Hash_SHA512 env (Password_string p)) = Ok key ->
  SecureIv env (Hash_SHA512 env (Password_string p)) = Ok iv ->
  Credentials_Serialise env (fst ids) (snd ids) = Ok serialised ->
  SymmEncrypt env serialised key iv = Ok cipher ->
  fs_writable env (path_append storage_path kCredentialsFilename) = true ->
  path_append storage_path kCredentialsFilename <> kConfigFilePath env ->
  snd (ReadConfigFile env st) = Ok service_pairs ->
  Map_find storage_path service_pairs = None ->
  fs_writable env (kConfigFilePath env) = true ->
  let written := fst (Map_insert storage_path service_alias service_pairs) in
  exists st',
    AddService env storage_path service_alias st = (st', Ok tt)
    /\ pending_service_additions_ st'
       = delete service_alias (pending_service_additions_ st)
    /\ disk st'
       = <[kConfigFilePath env := kConfigFileComment ++ karma_format written]>
           (<[path_append storage_path kCredentialsFilename := cipher]> (disk st))
    /\ drive_calls (trace st')
       = (drive_calls (trace st) ++ [DAddService service_alias storage_path])%list
    /\ Map_find storage_path written = Some service_alias.
Proof.
  intros Hin Hex Hname Hpending Hdrive Hpw Hkey Hiv Hser Henc Hwcred Hpaths Hmap Hfresh
    Hwcfg written.
  set (st0 := add_events [EvLock] st).
  set (st1 := set_pending (delete service_alias (pending_service_additions_ st))
                (add_events [EvWriteFile (path_append storage_path kCredentialsFilename)]
                   (set_disk (<[path_append storage_path kCredentialsFilename := cipher]>
                                (disk st))
                      (add_events [EvDrive (DAddService service_alias storage_path)] st0)))).
  assert (Hcommit : commit_block env storage_path service_alias st0 = (st1, Ok tt)).
  { unfold commit_block, call_drive, PutIds, WriteFile, st1, st0. open_monad.
    rewrite Hpending. reduce_state. rewrite Hdrive. reduce_state.
    rewrite (session_keys_of_password env
               (add_events [EvDrive (DAddService service_alias storage_path)]
                  (add_events [EvLock] st))
               p key iv Hpw Hkey Hiv).
    reduce_state. rewrite Hser. reduce_state. rewrite Henc. reduce_state.
    rewrite Hwcred. reflexivity. }
  destruct (ReadConfigFile_frame_file env st st1 service_pairs Hmap) as (evs & Hread & Hquiet).
  { simpl. by rewrite lookup_insert_ne. }
  destruct (Map_find_insert storage_path service_alias service_pairs Hfresh)
    as (Hinserted & Hfound & _).
  pose proof (Map_insert_not_empty storage_path service_alias service_pairs) as Hne.
  fold written in Hfound, Hne.
  set (st2 := add_events [EvWriteFile (kConfigFilePath env)]
                (set_disk (<[kConfigFilePath env
                             := kConfigFileComment ++ karma_format written]>
                             (disk (add_events evs st1)))
                   (add_events evs st1))).
  assert (Hentry : AddConfigEntry env storage_path service_alias st1 = (st2, Ok tt)).
  { unfold AddConfigEntry. rewrite (bind_Ok _ _ _ _ _ Hread). rewrite Hfresh.
    subst written.
    destruct (Map_insert storage_path service_alias service_pairs) as [m' inserted].
    simpl in Hinserted, Hne. subst inserted.
    unfold WriteConfigFile, WriteFile. open_monad.
    destruct m' as [|entry m']; [contradiction |]. reduce_state.
    rewrite Hwcfg. reflexivity. }
  exists (add_events [EvUnlock] st2). split.
  - by apply (AddService_after_commit env st st1 st2).
  - simpl. repeat split; [| exact Hfound].
    rewrite !drive_calls_app, Hquiet. simpl. by rewrite !app_nil_r.
Qed.

Lemma AddService_commits_witness :
  exists st',
    AddService toy "/data/photos" "photos" pending_photos = (st', Ok tt)
    /\ pending_service_additions_ st' = delete "photos" (pending_service_additions_ pending_photos)
    /\ disk st'
       = <[kConfigFilePath toy := kConfigFileComment ++ "/data/photos>photos:"]>
           (<[path_append "/data/photos" kCredentialsFilename
              := substring 0 48 (toy_hash "Abc123!") ++ rootA ++ "," ++ rootB]>
              (disk pending_photos))
    /\ drive_calls (trace st') = [DAddService "photos" "/data/photos"]
    /\ Map_find "/data/photos" [("/data/photos", "photos")] = Some "photos".
Proof.
  exact (AddService_commits toy pending_photos the_password "/data/photos" "photos"
           (substring 0 32 (toy_hash "Abc123!")) (substring 32 16 (toy_hash "Abc123!"))
           (rootA ++ "," ++ rootB)
           (substring 0 48 (toy_hash "Abc123!") ++ rootA ++ "," ++ rootB)
           (rootA, rootB) []
           eq_refl eq_refl eq_refl eq_refl eq_refl eq_refl eq_refl eq_refl eq_refl eq_refl
           eq_refl ltac:(discriminate) eq_refl eq_refl eq_refl).
Defined.

(** ** [OnServiceRemoved] and [OnServiceRenamed] *)

Lemma compare_not_lt_self (k : string) : String.compare k k <> Lt.
Proof.
  intros Hlt. pose proof (String.compare_antisym k k) as Hanti.
  rewrite Hlt in Hanti. discriminate.
Qed.

Lemma Map_ok_split (before : Map) : forall (entry : string * string) (after : Map),
  Map_ok (before ++ entry :: after)%list ->
  Forall (fun kv => fst kv <> fst entry) before.
Proof.
  induction before as [|kv before IH]; intros entry after Hok; [constructor |].
  simpl in Hok. apply StronglySorted_inv in Hok as [Hok Hhead].
  constructor; [| by apply (IH entry after)].
  rewrite Forall_forall in Hhead.
  assert (Hlt : key_lt kv entry) by (apply Hhead; apply list_elem_of_In, in_elt).
  intros Heq. unfold key_lt in Hlt. rewrite Heq in Hlt. by apply compare_not_lt_self in Hlt.
Qed.

Lemma Map_erase_entry (k v : string) (before after : Map) :
  Forall (fun kv => fst kv <> k) before ->
  Map_erase k (before ++ (k, v) :: after)%list = ((before ++ after)%list, 1).
Proof.
  induction 1 as [|[k0 v0] before Hne _ IH]; simpl.
  - by rewrite String.eqb_refl.
  - simpl in Hne. destruct (String.eqb_spec k k0) as [-> | _]; [contradiction |].
    by rewrite IH.
Qed.

Lemma OnServiceRemoved_loop_passes (env : Collaborators) (service_alias : string)
    (service_pairs before remaining : Map) (st : State) :
  Forall (fun kv => snd kv <> service_alias) before ->
  OnServiceRemoved_loop env service_alias service_pairs (before ++ remaining)%list st
  = OnServiceRemoved_loop env service_alias service_pairs remaining st.
Proof.
  induction 1 as [|[k v] before Hne _ IH]; [reflexivity |].
  simpl in Hne. simpl. by destruct (String.eqb_spec v service_alias).
Qed.

Lemma OnServiceRenamed_loop_passes (env : Collaborators) (old new : string)
    (before : Map) : forall (passed remaining : Map) (st : State),
  Forall (fun kv => snd kv <> old) before ->
  OnServiceRenamed_loop env old new passed (before ++ remaining)%list st
  = OnServiceRenamed_loop env old new (passed ++ before)%list remaining st.
Proof.
  induction before as [|[k v] before IH]; intros passed remaining st Hne.
  - simpl. by rewrite app_nil_r.
  - apply Forall_cons in Hne as [Hv Hne]. simpl in Hv. simpl.
    destruct (String.eqb_spec v old); [contradiction |].
    rewrite IH by exact Hne. by rewrite <- app_assoc.
Qed.

(** X18: [OnServiceRemoved] and [OnServiceRenamed] for an alias that no entry
    of the mapping carries read the config file and do nothing else: nothing
    is written, and no error is raised. *)
Theorem callbacks_for_unknown_alias (env : Collaborators) (st : State)
    (service_alias new_service_alias : string) (service_pairs : Map) :
  snd (ReadConfigFile env st) = Ok service_pairs ->
  Forall (fun kv => snd kv <> service_alias) service_pairs ->
  OnServiceRemoved env service_alias st = (fst (ReadConfigFile env st), Ok tt)
  /\ OnServiceRenamed env service_alias new_service_alias st
     = (fst (ReadConfigFile env st), Ok tt)
  /\ disk (fst (ReadConfigFile env st)) = disk st.
Proof.
  intros Hmap Hnone.
  destruct (ReadConfigFile env st) as [st1 r] eqn:Hread. simpl in Hmap. subst r.
  destruct (ReadConfigFile_state env st st1 _ Hread) as (evs & m & -> & _ & _).
  split; [| split; [| reflexivity]].
  - unfold OnServiceRemoved. rewrite (bind_Ok _ _ _ _ _ Hread).
    rewrite <- (app_nil_r service_pairs) at 2.
    by rewrite OnServiceRemoved_loop_passes.
  - unfold OnServiceRenamed. rewrite (bind_Ok _ _ _ _ _ Hread).
    rewrite <- (app_nil_r service_pairs).
    by rewrite OnServiceRenamed_loop_passes.
Qed.

Lemma callbacks_for_unknown_alias_witness :
  OnServiceRemoved toy "videos" next_start = (fst (ReadConfigFile toy next_start), Ok tt)
  /\ OnServiceRenamed toy "videos" "films" next_start
     = (fst (ReadConfigFile toy next_start), Ok tt)
  /\ disk (fst (ReadConfigFile toy next_start)) = disk next_start.
Proof.
  apply (callbacks_for_unknown_alias toy next_start "videos" "films"
           [("/data/music", "music"); ("/data/photos", "photos")]).
  - reflexivity.
  - repeat constructor; discriminate.
Defined.

(** What [OnServiceRemoved] does when an entry carries the alias: the first
    such entry is erased and the rest written. *)
Lemma OnServiceRemoved_run (env : Collaborators) (st : State)
    (service_alias storage_path : string) (before after : Map) :
  snd (ReadConfigFile env st) = Ok (before ++ (storage_path, service_alias) :: after)%list ->
  Map_ok (before ++ (storage_path, service_alias) :: after)%list ->
  Forall (fun kv => snd kv <> service_alias) before ->
  OnServiceRemoved env service_alias st
  = WriteConfigFile env (before ++ after)%list (fst (ReadConfigFile env st)).
Proof.
  intros Hmap Hok Hbefore.
  destruct (ReadConfigFile env st) as [st1 r] eqn:Hread. simpl in Hmap. subst r.
  unfold OnServiceRemoved. rewrite (bind_Ok _ _ _ _ _ Hread).
  rewrite OnServiceRemoved_loop_passes by exact Hbefore.
  cbn [OnServiceRemoved_loop]. rewrite String.eqb_refl.
  rewrite Map_erase_entry; [reflexivity |].
  apply (Map_ok_split before (storage_path, service_alias) after Hok).
Qed.

(** X19: [OnServiceRemoved] when entries carry the alias and others remain:
    the config file is rewritten as the comment line and the mapping
    without the first entry, in order of storage path, that carries the
    alias; every other entry is written as it was read, and no other file
    changes. *)
Theorem OnServiceRemoved_erases_first_match (env : Collaborators) (st : State)
    (service_alias storage_path : string) (before after : Map) :
  snd (ReadConfigFile env st) = Ok (before ++ (storage_path, service_alias) :: after)%list ->
  Map_ok (before ++ (storage_path, service_alias) :: after)%list ->
  Forall (fun kv => snd kv <> service_alias) before ->
  (before ++ after)%list <> [] ->
  fs_writable env (kConfigFilePath env) = true ->
  snd (OnServiceRemoved env service_alias st) = Ok tt
  /\ disk (fst (OnServiceRemoved env service_alias st))
     = <[kConfigFilePath env := kConfigFileComment ++ karma_format (before ++ after)%list]>
         (disk st).
Proof.
  intros Hmap Hok Hbefore Hrest Hwritable.
  rewrite (OnServiceRemoved_run env st _ _ _ _ Hmap Hok Hbefore).
  destruct (ReadConfigFile env st) as [st1 r] eqn:Hread.
  destruct (ReadConfigFile_state env st st1 _ Hread) as (evs & m & -> & _ & _).
  unfold WriteConfigFile, WriteFile. open_monad.
  destruct (before ++ after)%list as [|entry rest]; [contradiction |].
  reduce_state. rewrite Hwritable. by reduce_state.
Qed.

Lemma OnServiceRemoved_erases_first_match_witness :
  snd (OnServiceRemoved toy "music" next_start) = Ok tt
  /\ disk (fst (OnServiceRemoved toy "music" next_start))
     = <[kConfigFilePath toy := kConfigFileComment ++ "/data/photos>photos:"]>
         (disk next_start).
Proof.
  apply (OnServiceRemoved_erases_first_match toy next_start "music" "/data/music"
           [] [("/data/photos", "photos")]).
  - reflexivity.
  - repeat constructor.
  - constructor.
  - discriminate.
  - reflexivity.
Defined.

(** X20: [OnServiceRemoved] for the only entry of the mapping writes the
    file of an empty mapping, the sentinel, and so encrypts the comment with
    the password that is still in memory. *)
Theorem OnServiceRemoved_last_entry (env : Collaborators) (st : State) (p : Password)
    (service_alias storage_path key iv cipher : string) :
  snd (ReadConfigFile env st) = Ok [(storage_path, service_alias)] ->
  password_ st = Some p ->
  SecureKey env (Hash_SHA512 env (Password_string p)) = Ok key ->
  SecureIv env (Hash_SHA512 env (Password_string p)) = Ok iv ->
  SymmEncrypt env kConfigFileComment key iv = Ok cipher ->
  fs_writable env (kConfigFilePath env) = true ->
  snd (OnServiceRemoved env service_alias st) = Ok tt
  /\ disk (fst (OnServiceRemoved env service_alias st))
     = <[kConfigFilePath env := "#" ++ cipher ++ String newline EmptyString]> (disk st).
Proof.
  intros Hmap Hpw Hkey Hiv Henc Hwritable.
  rewrite (OnServiceRemoved_run env st service_alias storage_path [] [] Hmap);
    [| repeat constructor | constructor].
  rewrite app_nil_r.
  destruct (ReadConfigFile env st) as [st1 r] eqn:Hread.
  destruct (ReadConfigFile_state env st st1 _ Hread) as (evs & m & -> & _ & _).
  unfold WriteConfigFile, EncryptComment, WriteFile. open_monad.
  rewrite (session_keys_of_password env (add_events evs st) p key iv Hpw Hkey Hiv).
  reduce_state. rewrite Henc. reduce_state. rewrite Hwritable. by reduce_state.
Qed.

Lemma OnServiceRemoved_last_entry_witness :
  snd (OnServiceRemoved toy "photos"
         (fst (AddService toy "/data/photos" "photos" pending_photos)))
    = Ok tt
  /\ disk (fst (OnServiceRemoved toy "photos"
                  (fst (AddService toy "/data/photos" "photos" pending_photos))))
     = <[kConfigFilePath toy := sentinel_content]>
         (disk (fst (AddService toy "/data/photos" "photos" pending_photos))).
Proof.
  apply (OnServiceRemoved_last_entry toy
           (fst (AddService toy "/data/photos" "photos" pending_photos)) the_password
           "photos" "/data/photos"
           (substring 0 32 (toy_hash "Abc123!")) (substring 32 16 (toy_hash "Abc123!")));
    reflexivity.
Defined.

(** X21: [OnServiceRenamed] when an entry carries the old alias: the config
    file is rewritten as the comment line and the mapping in which the first
    entry, in order of storage path, that carries the old alias carries the
    new one; the storage paths and every other alias are written as they
    were read. *)
Theorem OnServiceRenamed_renames_first_match (env : Collaborators) (st : State)
    (old_service_alias new_service_alias storage_path : string) (before after : Map) :
  snd (ReadConfigFile env st) = Ok (before ++ (storage_path, old_service_alias) :: after)%list ->
  Forall (fun kv => snd kv <> old_service_alias) before ->
  fs_writable env (kConfigFilePath env) = true ->
  snd (OnServiceRenamed env old_service_alias new_service_alias st) = Ok tt
  /\ disk (fst (OnServiceRenamed env old_service_alias new_service_alias st))
     = <[kConfigFilePath env
         := kConfigFileComment
            ++ karma_format (before ++ (storage_path, new_service_alias) :: after)%list]>
         (disk st).
Proof.
  intros Hmap Hbefore Hwritable.
  destruct (ReadConfigFile env st) as [st1 r] eqn:Hread. simpl in Hmap. subst r.
  destruct (ReadConfigFile_state env st st1 _ Hread) as (evs & m & -> & _ & _).
  unfold OnServiceRenamed. rewrite (bind_Ok _ _ _ _ _ Hread).
  rewrite OnServiceRenamed_loop_passes by exact Hbefore.
  cbn [OnServiceRenamed_loop]. rewrite String.eqb_refl. rewrite app_nil_l.
  unfold WriteConfigFile, WriteFile. open_monad.
  destruct (before ++ (storage_path, new_service_alias) :: after)%list
    as [|entry rest] eqn:Hlist; [by destruct before |].
  reduce_state. rewrite Hwritable. by reduce_state.
Qed.

Lemma OnServiceRenamed_renames_first_match_witness :
  snd (OnServiceRenamed toy "photos" "pictures" next_start) = Ok tt
  /\ disk (fst (OnServiceRenamed toy "photos" "pictures" next_start))
     = <[kConfigFilePath toy
         := kConfigFileComment ++ "/data/music>music:/data/photos>pictures:"]>
         (disk next_start).
Proof.
  apply (OnServiceRenamed_renames_first_match toy next_start "photos" "pictures"
           "/data/photos" [("/data/music", "music")] []).
  - reflexivity.
  - repeat constructor; discriminate.
  - reflexivity.
Defined.

(** ** Adding an entry and removing it again *)

Lemma ascii_compare_lt_trans (a b c : ascii) :
  Ascii.compare a b = Lt -> Ascii.compare b c = Lt -> Ascii.compare a c = Lt.
Proof.
  unfold Ascii.compare. rewrite !N.compare_lt_iff. apply N.lt_trans.
Qed.

Lemma string_compare_lt_trans (s1 : string) : forall s2 s3,
  String.compare s1 s2 = Lt -> String.compare s2 s3 = Lt -> String.compare s1 s3 = Lt.
Proof.
  induction s1 as [|c1 s1 IH]; intros [|c2 s2] [|c3 s3]; simpl; try discriminate; auto.
  destruct (Ascii.compare c1 c2) eqn:H12; try discriminate.
  - apply Ascii.compare_eq_iff in H12. subst c2.
    destruct (Ascii.compare c1 c3); try discriminate; auto. apply IH.
  - intros _. destruct (Ascii.compare c2 c3) eqn:H23; try discriminate.
    + apply Ascii.compare_eq_iff in H23. subst c3. by rewrite H12.
    + by rewrite (ascii_compare_lt_trans c1 c2 c3 H12 H23).
Qed.

(** Where [std::map::insert] puts an entry with a new key: after the entries
    with smaller keys and before those with greater ones. *)
Lemma Map_insert_split (k v : string) (m : Map) :
  Map_ok m -> Map_find k m = None ->
  exists before after,
    m = (before ++ after)%list
    /\ fst (Map_insert k v m) = (before ++ (k, v) :: after)%list
    /\ Forall (fun a => key_lt a (k, v)) before
    /\ Forall (key_lt (k, v)) after.
Proof.
  induction m as [|[k0 v0] m IH]; intros Hok Hnone.
  - exists [], []. by repeat split.
  - simpl in Hnone. destruct (String.eqb_spec k k0) as [-> | Hne]; [discriminate |].
    apply StronglySorted_inv in Hok as [Hok Hhead].
    simpl. destruct (String.compare k k0) eqn:Hcmp.
    + apply String.compare_eq_iff in Hcmp. contradiction.
    + exists [], ((k0, v0) :: m). repeat split; [constructor |].
      constructor; [exact Hcmp |].
      eapply Forall_impl; [exact Hhead |].
      intros [k1 v1] Hlt. unfold key_lt in *. simpl in *.
      by apply (string_compare_lt_trans k k0 k1).
    + destruct (IH Hok Hnone) as (before & after & Hm & Hins & Hlow & Hhigh).
      destruct (Map_insert k v m) as [r fresh]. simpl in Hins. subst r.
      exists ((k0, v0) :: before), after. repeat split.
      * simpl. by rewrite Hm.
      * constructor; [| exact Hlow].
        unfold key_lt. simpl. by rewrite String.compare_antisym, Hcmp.
      * exact Hhigh.
Qed.

Lemma Map_ok_insert_between (before : Map) : forall (entry : string * string) (after : Map),
  Map_ok (before ++ after)%list ->
  Forall (fun a => key_lt a entry) before ->
  Forall (key_lt entry) after ->
  Map_ok (before ++ entry :: after)%list.
Proof.
  induction before as [|a before IH]; intros entry after Hok Hlow Hhigh.
  - simpl in *. by constructor.
  - simpl in *. apply StronglySorted_inv in Hok as [Hok Ha].
    apply Forall_cons in Hlow as [Hlt Hlow].
    constructor; [by apply IH |].
    apply Forall_app in Ha as [Ha1 Ha2].
    apply Forall_app. split; [exact Ha1 | by constructor].
Qed.

(** [ReadConfigFile], with the grammar as the spec gives it, on the file
    [WriteConfigFile] writes for a populated mapping. *)
Lemma ReadConfigFile_rendered (env : Collaborators) (st : State) (m : Map) :
  grammer_parse env = grammer_spec ->
  m <> [] -> Map_ok m -> Forall (fun kv => plain_entry kv = true) m ->
  disk st !! kConfigFilePath env = Some (kConfigFileComment ++ karma_format m) ->
  ReadConfigFile env st = (add_events [EvReadFile (kConfigFilePath env)] st, Ok m).
Proof.
  intros Hgrammar Hne Hok Hplain Hfile.
  unfold ReadConfigFile. open_monad. rewrite Hfile. cbn [from_option id].
  rewrite getlines_comment.
  assert (Hline : karma_format m <> EmptyString).
  { destruct m as [|[k v] rest]; [contradiction |]. cbn [karma_format].
    apply Forall_cons in Hplain as [Hkv _].
    unfold plain_entry in Hkv. simpl in Hkv. apply andb_prop in Hkv as [Hk _].
    apply plain_key_inv in Hk as (Hk & _). by destruct k. }
  rewrite (getlines_single _ Hline (karma_format_no_newline _ Hplain)).
  rewrite Hgrammar, (grammer_spec_rendered _ Hok Hplain).
  reflexivity.
Qed.

(** X22: adding an entry and removing it again restores the config file.
    With the grammar as the spec gives it, over a config file that holds a
    populated mapping of plain entries: [AddConfigEntry] for a storage path
    the mapping does not hold and an alias no entry carries succeeds, the
    file then reads back as the mapping with the new entry inserted, and
    [OnServiceRemoved] for the alias leaves every file as it was before the
    entry was added. *)
Theorem OnServiceRemoved_undoes_AddConfigEntry (env : Collaborators) (st : State)
    (service_pairs : Map) (storage_path service_alias : string) :
  grammer_parse env = grammer_spec ->
  fs_writable env (kConfigFilePath env) = true ->
  service_pairs <> [] ->
  Map_ok service_pairs ->
  Forall (fun kv => plain_entry kv = true) service_pairs ->
  disk st !! kConfigFilePath env
    = Some (kConfigFileComment ++ karma_format service_pairs) ->
  Map_find storage_path service_pairs = None ->
  Forall (fun kv => snd kv <> service_alias) service_pairs ->
  plain_key storage_path = true ->
  plain_value service_alias = true ->
  exists st1 st2,
    AddConfigEntry env storage_path service_alias st = (st1, Ok tt)
    /\ snd (ReadConfigFile env st1)
       = Ok (fst (Map_insert storage_path service_alias service_pairs))
    /\ OnServiceRemoved env service_alias st1 = (st2, Ok tt)
    /\ disk st2 = disk st.
Proof.
  intros Hgrammar Hwritable Hne Hok Hplain Hfile Hfresh Halias Hkey Hvalue.
  pose proof (ReadConfigFile_rendered env st _ Hgrammar Hne Hok Hplain Hfile) as Hread.
  destruct (Map_insert_split storage_path service_alias service_pairs Hok Hfresh)
    as (before & after & Hm & Hins & Hlow & Hhigh).
  destruct (Map_find_insert storage_path service_alias service_pairs Hfresh)
    as (Hinserted & _ & _).
  set (written := (before ++ (storage_path, service_alias) :: after)%list) in *.
  assert (Hok1 : Map_ok written).
  { apply Map_ok_insert_between; [by rewrite <- Hm | exact Hlow | exact Hhigh]. }
  assert (Hplain1 : Forall (fun kv => plain_entry kv = true) written).
  { rewrite Hm in Hplain. apply Forall_app in Hplain as [Hp1 Hp2].
    apply Forall_app. split; [exact Hp1 |]. constructor; [| exact Hp2].
    unfold plain_entry. simpl. by rewrite Hkey, Hvalue. }
  assert (Hne1 : written <> []) by (subst written; by destruct before).
  set (st1 := add_events [EvWriteFile (kConfigFilePath env)]
                (set_disk (<[kConfigFilePath env
                             := kConfigFileComment ++ karma_format written]> (disk st))
                   (add_events [EvReadFile (kConfigFilePath env)] st))).
  assert (Hadd : AddConfigEntry env storage_path service_alias st = (st1, Ok tt)).
  { unfold AddConfigEntry. rewrite (bind_Ok _ _ _ _ _ Hread), Hfresh.
    destruct (Map_insert storage_path service_alias service_pairs) as [m' inserted].
    simpl in Hins, Hinserted. subst m' inserted.
    unfold WriteConfigFile, WriteFile. open_monad.
    destruct written as [|entry rest] eqn:Hw; [contradiction |].
    reduce_state. rewrite Hwritable. reflexivity. }
  assert (Hread1 : ReadConfigFile env st1
                   = (add_events [EvReadFile (kConfigFilePath env)] st1, Ok written)).
  { apply ReadConfigFile_rendered; try assumption.
    unfold st1. simpl. by rewrite lookup_insert_eq. }
  eexists st1, _. split; [exact Hadd |]. split; [by rewrite Hread1, Hins |].
  assert (Hbefore : Forall (fun kv => snd kv <> service_alias) before).
  { rewrite Hm in Halias. by apply Forall_app in Halias as [Hb _]. }
  rewrite (OnServiceRemoved_run env st1 service_alias storage_path before after);
    [| by rewrite Hread1 | exact Hok1 | exact Hbefore].
  rewrite Hread1, <- Hm. simpl fst.
  unfold WriteConfigFile, WriteFile. open_monad.
  destruct service_pairs as [|entry rest] eqn:Hsp; [contradiction |].
  reduce_state. rewrite Hwritable. split; [reflexivity |].
  unfold st1. simpl. rewrite insert_insert_eq. by apply insert_id.
Qed.

Lemma OnServiceRemoved_undoes_AddConfigEntry_witness :
  exists st1 st2,
    AddConfigEntry toy "/data/notes" "notes" next_start = (st1, Ok tt)
    /\ snd (ReadConfigFile toy st1)
       = Ok [("/data/music", "music"); ("/data/notes", "notes"); ("/data/photos", "photos")]
    /\ OnServiceRemoved toy "notes" st1 = (st2, Ok tt)
    /\ disk st2 = disk next_start.
Proof.
  apply (OnServiceRemoved_undoes_AddConfigEntry toy next_start
           [("/data/music", "music"); ("/data/photos", "photos")] "/data/notes" "notes");
    try reflexivity.
  - discriminate.
  - repeat constructor.
  - repeat constructor.
  - repeat constructor; discriminate.
Defined.

(** ** [InsertInput] and [RemoveInput] *)

(** X23: [InsertInput] on a password field leaves that field with a buffer,
    created empty when there was none, also when [Insert] throws, and never
    touches the other field; [RemoveInput] on a field without a buffer throws
    [uninitialised]; for any other field both throw [unknown]; and the two
    functions change nothing but the buffer they are asked for. *)
Theorem input_fields (Password_Insert : nat -> string -> Password -> result Password)
    (Password_Remove : nat -> nat -> Password -> result Password)
    (position length : nat) (characters : string) (input_field : InputField)
    (st : State) :
  let inserted :=
    fst (InsertInput Password_Insert position characters input_field st) in
  let removed := RemoveInput Password_Remove position length input_field st in
  match input_field with
  | kPassword =>
      password_ inserted <> None
      /\ set_password (password_ st) inserted = st
      /\ (password_ st = None -> removed = (st, Throw CommonErrors_uninitialised))
      /\ set_password (password_ st) (fst removed) = st
  | kConfirmationPassword =>
      confirmation_password_ inserted <> None
      /\ set_confirmation_password (confirmation_password_ st) inserted = st
      /\ (confirmation_password_ st = None ->
          removed = (st, Throw CommonErrors_uninitialised))
      /\ set_confirmation_password (confirmation_password_ st) (fst removed) = st
  | kOtherInputField =>
      InsertInput Password_Insert position characters input_field st
        = (st, Throw CommonErrors_unknown)
      /\ removed = (st, Throw CommonErrors_unknown)
  end.
Proof.
  destruct st as [li pw cp dr pend dk dw tr].
  destruct input_field; unfold InsertInput, RemoveInput; open_monad; simpl.
  - repeat split.
    + destruct (Password_Insert position characters _); simpl; discriminate.
    + by destruct (Password_Insert position characters _).
    + by intros ->.
    + destruct pw as [p|]; [| reflexivity].
      by destruct (Password_Remove position length p).
  - repeat split.
    + destruct (Password_Insert position characters _); simpl; discriminate.
    + by destruct (Password_Insert position characters _).
    + by intros ->.
    + destruct cp as [p|]; [| reflexivity].
      by destruct (Password_Remove position length p).
  - by split.
Qed.

(** ** A [Login] that stops part of the way *)



